(** Verification of DoNewsCode/std: the capability container
    (package container) and the resource-provider builders of the
    otetcd and otredis packages. *)

From stdpp Require Import gmap strings list fin_maps.

(** * Package container *)

Module container.

(** The six provider interfaces, each identified by its single method. *)
Inductive Method :=
| ProvideHttp | ProvideGrpc | ProvideCron
| ProvideRunGroup | ProvideCommand | ProvideCloser.

#[global] Instance Method_eq_dec : EqDecision Method.
Proof. solve_decision. Defined.

(** A value of type [interface{}] handed to [AddModule]: either a value
    of dynamic type [func()], or a value of some other dynamic type, known
    by the identity of the value and the method set of its type. *)
Inductive ModuleValue :=
| FuncValue (f : nat)
| ObjValue (recv : nat) (methods : list Method).

#[global] Instance ModuleValue_eq_dec : EqDecision ModuleValue.
Proof. solve_decision. Defined.

(** The function values kept in the provider slices: a [func()] passed
    as such, or a method value [p.ProvideX] bound to its receiver. *)
Inductive Func :=
| FuncLit (f : nat)
| MethodValue (recv : nat) (m : Method).

#[global] Instance Func_eq_dec : EqDecision Func.
Proof. solve_decision. Defined.

(** The host objects, all passed by pointer. *)
Inductive Host :=
| Router (ptr : nat)
| Server (ptr : nat)
| Crontab (ptr : nat)
| Command (ptr : nat)
| Group (ptr : nat).

#[global] Instance Host_eq_dec : EqDecision Host.
Proof. solve_decision. Defined.

(** What an observer sees of the container: a provider called with a
    host, and, for the goroutines of [Shutdown], goroutine [j] entering
    and leaving its closer. The bodies of the callbacks are the modules'
    business; they are not given the container. *)
Inductive Event :=
| Call (p : Func) (host : Host)
| Enter (j : nat) (p : Func)
| Leave (j : nat) (p : Func).

#[global] Instance Event_eq_dec : EqDecision Event.
Proof. solve_decision. Defined.

(** type Container struct *)
Record Container := mkContainer {
  httpProviders : list Func;
  grpcProviders : list Func;
  closerProviders : list Func;
  runProviders : list Func;
  modules : list ModuleValue;
  cronProviders : list Func;
  commandProviders : list Func
}.

(** The zero value [Container{}]: every slice is nil. *)
Definition zero : Container := mkContainer [] [] [] [] [] [] [].

(** ** Type assertions of AddModule *)

(** [p, ok := module.(func())] *)
Definition assert_func (module : ModuleValue) : option Func :=
  match module with
  | FuncValue f => Some (FuncLit f)
  | ObjValue _ _ => None
  end.

(** [p, ok := module.(XProvider)], followed by the method value
    [p.ProvideX]: it succeeds when the method set of the dynamic type has
    the interface's method. A [func()] has no methods. *)
Definition assert_provider (m : Method) (module : ModuleValue) : option Func :=
  match module with
  | FuncValue _ => None
  | ObjValue recv methods =>
      if bool_decide (m ∈ methods) then Some (MethodValue recv m) else None
  end.

(** ** The store and its monad

    The methods have the receiver [c *Container]: the container lives in
    the store, next to the trace of what was called. *)
Record World := mkWorld { heap : Container; trace : list Event }.

Definition M (A : Type) : Type := World → A * World.

Definition ret {A} (a : A) : M A := λ w, (a, w).
Definition bind {A B} (x : M A) (k : A → M B) : M B :=
  λ w, let (a, w') := x w in k a w'.
Definition exec {A} (x : M A) (w : World) : World := snd (x w).
Definition eval {A} (x : M A) (w : World) : A := fst (x w).

#[global] Instance M_ret : MRet M := @ret.
#[global] Instance M_bind : MBind M := λ A B k x, bind x k.

Definition load : M Container := λ w, (heap w, w).
Definition store (c : Container) : M unit := λ w, (tt, mkWorld c (trace w)).

(** [p(host)] *)
Definition call (p : Func) (host : Host) : M unit :=
  λ w, (tt, mkWorld (heap w) (trace w ++ [Call p host])).

(** [for _, x := range l { body }]; the slice is read once, before the
    loop. *)
Fixpoint range {A} (l : list A) (body : A → M unit) : M unit :=
  match l with
  | [] => ret tt
  | x :: l' => body x ;; range l' body
  end.

(** [if p, ok := o; ok { body }] *)
Definition if_ok {A} (o : option A) (body : A → M unit) : M unit :=
  match o with
  | Some p => body p
  | None => ret tt
  end.

(** ** The methods of Container *)

Definition ApplyRouter (router : nat) : M unit :=
  c ← load; range (httpProviders c) (λ p, call p (Router router)).

Definition ApplyGRPCServer (server : nat) : M unit :=
  c ← load; range (grpcProviders c) (λ p, call p (Server server)).

Definition ApplyRunGroup (g : nat) : M unit :=
  c ← load; range (runProviders c) (λ p, call p (Group g)).

Definition Modules : M (list ModuleValue) :=
  c ← load; ret (modules c).

Definition ApplyCron (crontab : nat) : M unit :=
  c ← load; range (cronProviders c) (λ p, call p (Crontab crontab)).

Definition ApplyRootCommand (command : nat) : M unit :=
  c ← load; range (commandProviders c) (λ p, call p (Command command)).

(** [c.xProviders = append(c.xProviders, p)], one per field. *)
Definition append_http (p : Func) : M unit :=
  c ← load;
  store (mkContainer (httpProviders c ++ [p]) (grpcProviders c)
           (closerProviders c) (runProviders c) (modules c)
           (cronProviders c) (commandProviders c)).

Definition append_grpc (p : Func) : M unit :=
  c ← load;
  store (mkContainer (httpProviders c) (grpcProviders c ++ [p])
           (closerProviders c) (runProviders c) (modules c)
           (cronProviders c) (commandProviders c)).

Definition append_closer (p : Func) : M unit :=
  c ← load;
  store (mkContainer (httpProviders c) (grpcProviders c)
           (closerProviders c ++ [p]) (runProviders c) (modules c)
           (cronProviders c) (commandProviders c)).

Definition append_run (p : Func) : M unit :=
  c ← load;
  store (mkContainer (httpProviders c) (grpcProviders c)
           (closerProviders c) (runProviders c ++ [p]) (modules c)
           (cronProviders c) (commandProviders c)).

Definition append_module (module : ModuleValue) : M unit :=
  c ← load;
  store (mkContainer (httpProviders c) (grpcProviders c)
           (closerProviders c) (runProviders c) (modules c ++ [module])
           (cronProviders c) (commandProviders c)).

Definition append_cron (p : Func) : M unit :=
  c ← load;
  store (mkContainer (httpProviders c) (grpcProviders c)
           (closerProviders c) (runProviders c) (modules c)
           (cronProviders c ++ [p]) (commandProviders c)).

Definition append_command (p : Func) : M unit :=
  c ← load;
  store (mkContainer (httpProviders c) (grpcProviders c)
           (closerProviders c) (runProviders c) (modules c)
           (cronProviders c) (commandProviders c ++ [p])).

Definition AddModule (module : ModuleValue) : M unit :=
  match assert_func module with
  | Some p => append_closer p (* return *)
  | None =>
      if_ok (assert_provider ProvideHttp module) append_http;;
      if_ok (assert_provider ProvideGrpc module) append_grpc;;
      if_ok (assert_provider ProvideCron module) append_cron;;
      if_ok (assert_provider ProvideRunGroup module) append_run;;
      if_ok (assert_provider ProvideCommand module) append_command;;
      if_ok (assert_provider ProvideCloser module) append_closer;;
      append_module module
  end.

(** ** Capabilities, as the registration sees them *)

(** A module satisfies a provider interface when the method set of its
    dynamic type has the interface's method. *)
Definition satisfies (m : Method) (module : ModuleValue) : Prop :=
  match module with
  | FuncValue _ => False
  | ObjValue _ methods => m ∈ methods
  end.

#[global] Instance satisfies_dec m module : Decision (satisfies m module).
Proof. destruct module; simpl; apply _. Defined.

(** The callback of a module for a capability: the method value bound to
    the module, or the function itself for a [func()]. *)
Definition callback (m : Method) (module : ModuleValue) : Func :=
  match module with
  | FuncValue f => FuncLit f
  | ObjValue recv _ => MethodValue recv m
  end.

(** The slice of the container that belongs to a capability. *)
Definition providers (m : Method) (c : Container) : list Func :=
  match m with
  | ProvideHttp => httpProviders c
  | ProvideGrpc => grpcProviders c
  | ProvideCron => cronProviders c
  | ProvideRunGroup => runProviders c
  | ProvideCommand => commandProviders c
  | ProvideCloser => closerProviders c
  end.

(** The Apply method of a capability; the closers have none, they are
    run by [Shutdown]. *)
Definition Apply (m : Method) : option (nat → M unit) :=
  match m with
  | ProvideHttp => Some ApplyRouter
  | ProvideGrpc => Some ApplyGRPCServer
  | ProvideCron => Some ApplyCron
  | ProvideRunGroup => Some ApplyRunGroup
  | ProvideCommand => Some ApplyRootCommand
  | ProvideCloser => None
  end.

(** The host that the Apply method of a capability passes on, for the
    pointer it was called with (of no use for the closers, which take no
    argument). *)
Definition host (m : Method) (ptr : nat) : Host :=
  match m with
  | ProvideHttp => Router ptr
  | ProvideGrpc => Server ptr
  | ProvideCron => Crontab ptr
  | ProvideRunGroup => Group ptr
  | ProvideCommand | ProvideCloser => Command ptr
  end.

(** What one registration appends to the slice of a capability. *)
Definition appended (m : Method) (module : ModuleValue) : list Func :=
  match module with
  | FuncValue f => if decide (m = ProvideCloser) then [FuncLit f] else []
  | ObjValue recv methods =>
      if bool_decide (m ∈ methods) then [MethodValue recv m] else []
  end.

(** The calls a dispatch of capability [m] over the registrations [ms] is
    to make: one call, with the host, of the callback of every module of
    [ms] that satisfies [m], in the order of [ms]. *)
Definition dispatched (m : Method) (ptr : nat) (ms : list ModuleValue) : list Event :=
  map (λ module, Call (callback m module) (host m ptr)) (filter (satisfies m) ms).

(** The container reached from [Container{}] by registering the modules
    of [ms], first to last. *)
Definition registered (ms : list ModuleValue) : Container :=
  heap (exec (range ms AddModule) (mkWorld zero [])).

(** ** Shutdown

    [Shutdown] starts goroutines, so it is given as a step relation over
    the interleavings of the main goroutine and the ones it starts. *)

(** Where goroutine [j] stands in [func() { p(); wg.Done() }()]. *)
Inductive GoState :=
| Spawned    (* started by the go statement, p() not yet called *)
| Running    (* inside p() *)
| Returned   (* p() has returned, wg.Done() not yet called *)
| Finished.  (* after wg.Done() *)

#[global] Instance GoState_eq_dec : EqDecision GoState.
Proof. solve_decision. Defined.

(** Where the caller of [Shutdown] stands. [AtLoop i] is the head of the
    loop at index [i]; past the last index it is [wg.Wait()]. *)
Inductive Pc :=
| AtLoop (i : nat)   (* before wg.Add(1) of iteration i, or at wg.Wait() *)
| AtGo (i : nat)     (* after wg.Add(1), before the go statement *)
| Exited.            (* Shutdown has returned *)

Record Sd := mkSd {
  world : World;        (* the store: container and trace *)
  pc : Pc;              (* the caller *)
  wg : Z;               (* the counter of the sync.WaitGroup *)
  gos : list GoState    (* goroutine j runs closerProviders[j] *)
}.

(** The call of [Shutdown]: [var wg sync.WaitGroup], nothing started. *)
Definition Shutdown_start (w : World) : Sd := mkSd w (AtLoop 0) 0 [].

Definition emit (e : Event) (w : World) : World :=
  mkWorld (heap w) (trace w ++ [e]).

Inductive step : Sd → Sd → Prop :=
| step_add w i n g p :          (* wg.Add(1) *)
    closerProviders (heap w) !! i = Some p →
    step (mkSd w (AtLoop i) n g) (mkSd w (AtGo i) (n + 1) g)
| step_go w i n g :             (* p := p; go func() {...}() *)
    step (mkSd w (AtGo i) n g) (mkSd w (AtLoop (S i)) n (g ++ [Spawned]))
| step_wait w i g :             (* wg.Wait() returns when the counter is 0 *)
    closerProviders (heap w) !! i = None →
    step (mkSd w (AtLoop i) 0 g) (mkSd w Exited 0 g)
| step_enter w c n g j p :      (* goroutine j calls p() *)
    g !! j = Some Spawned →
    closerProviders (heap w) !! j = Some p →
    step (mkSd w c n g) (mkSd (emit (Enter j p) w) c n (<[j:=Running]> g))
| step_leave w c n g j p :      (* p() returns *)
    g !! j = Some Running →
    closerProviders (heap w) !! j = Some p →
    step (mkSd w c n g) (mkSd (emit (Leave j p) w) c n (<[j:=Returned]> g))
| step_done w c n g j :         (* wg.Done() *)
    g !! j = Some Returned →
    step (mkSd w c n g) (mkSd w c (n - 1) (<[j:=Finished]> g)).

(** Runs of [Shutdown]: the reflexive transitive closure of [step]. *)
Inductive steps : Sd → Sd → Prop :=
| steps_refl s : steps s s
| steps_more s1 s2 s3 : steps s1 s2 → step s2 s3 → steps s1 s3.

(** What goroutine [j], running the closer [p], has added to the trace
    by the time it stands at [st]. *)
Definition emitted (j : nat) (p : Func) (st : GoState) : list Event :=
  match st with
  | Spawned => []
  | Running => [Enter j p]
  | Returned | Finished => [Enter j p; Leave j p]
  end.

(** The same for the goroutines [g], which run the closers [cl] from
    index [j] on. *)
Fixpoint emitted_from (j : nat) (cl : list Func) (g : list GoState) : list Event :=
  match cl, g with
  | p :: cl', st :: g' => emitted j p st ++ emitted_from (S j) cl' g'
  | _, _ => []
  end.

(** The goroutines that have not yet called [wg.Done()]. *)
Definition pending (g : list GoState) : nat :=
  length (filter (λ st, st ≠ Finished) g).

(** The closers with their index in the slice: goroutine [j] is the one
    started for [closerProviders[j]]. *)
Definition tasks (cl : list Func) : list (nat * Func) := imap pair cl.

Definition enter (jp : nat * Func) : Event := Enter jp.1 jp.2.
Definition leave (jp : nat * Func) : Event := Leave jp.1 jp.2.

(** How often the closer [p] was entered in a trace. *)
Definition enters (p : Func) (e : Event) : Prop :=
  match e with
  | Enter _ q => q = p
  | _ => False
  end.

#[global] Instance enters_dec p e : Decision (enters p e).
Proof. destruct e; simpl; apply _. Defined.

Definition entered (p : Func) (evs : list Event) : nat :=
  length (filter (enters p) evs).

(** What holds of every state a run of [Shutdown] called in [w0] goes
    through. *)
Definition Shutdown_inv (w0 : World) (s : Sd) : Prop :=
  let cl := closerProviders (heap w0) in
  heap (world s) = heap w0 ∧
  (∃ evs, trace (world s) = trace w0 ++ evs ∧
          evs ≡ₚ emitted_from 0 cl (gos s)) ∧
  match pc s with
  | AtLoop i =>
      length (gos s) = i ∧ i ≤ length cl ∧ wg s = Z.of_nat (pending (gos s))
  | AtGo i =>
      length (gos s) = i ∧ i < length cl ∧ wg s = (Z.of_nat (pending (gos s)) + 1)%Z
  | Exited =>
      length (gos s) = length cl ∧ pending (gos s) = 0
  end.

(** Goroutines moved on one after the other, in the order of [σ]. *)
Fixpoint moved (st : GoState) (σ : list (nat * Func)) (g : list GoState) : list GoState :=
  match σ with
  | [] => g
  | jp :: σ' => moved st σ' (<[jp.1:=st]> g)
  end.

End container.

(** * The resource providers *)

(** ** Go values shared by the providers *)

(** A Go [error]: nil, or an error with its message. *)
Definition error := option string.

(** The tracing hook of package otredis:
    [hook{addrs: ..., database: ..., tracer: ...}]. *)
Record hook := mkHook { addrs : list string; database : Z; tracer : nat }.

(** A value of type [interface{}], as a factory hands it back: the nil
    interface, a [*clientv3.Client] (which may be the nil pointer), a
    value that implements [redis.UniversalClient] (the client the
    library returned, with the hooks added to it since), or a value of
    any other type. *)
Inductive Iface :=
| NilIface
| EtcdClientPtr (client : option nat)
| RedisUniversalClient (client : nat) (hooks : list hook)
| OtherValue (v : nat).

(** How a call ends: it returns, or it panics. *)
Inductive outcome (A : Type) :=
| Returns (a : A)
| Panics.
Arguments Returns {A} a.
Arguments Panics {A}.

(** [os.Getenv]: the value of the variable, empty when it is not set. *)
Definition Getenv (env : gmap string string) (key : string) : string :=
  default "" (env !! key).

(** ** Package di (and async): the generic factory *)

Module di.

(** type Pair struct { Conn interface{}; Closer func() }; the closer is
    known by the client it closes. *)
Record Pair := mkPair { Conn : Iface; Closer : option Iface }.

(** [Pair{}] *)
Definition zero_Pair : Pair := mkPair NilIface None.

(** Modelled from the spec: the generic named-resource factory
    ([di.Factory], and [async.Factory] in the older package layout);
    the sources at hand have its callers only. It owns the mapping from
    names to constructed pairs and the build function. *)
Record Factory := mkFactory {
  cache : gmap string Pair;
  constructor : string → Pair * error
}.

(** Modelled from the spec: [NewFactory], a factory that has memoized
    nothing yet. *)
Definition NewFactory (constructor : string → Pair * error) : Factory :=
  mkFactory ∅ constructor.

(** Modelled from the spec: [Make(name)]. If an instance for the name is
    memoized, it is returned with no error. Otherwise the builder is
    invoked with the name; on success the pair is memoized under the
    name and the instance returned; on failure the builder's error is
    returned and nothing is memoized. *)
Definition Make (f : Factory) (name : string) : (Iface * error) * Factory :=
  match cache f !! name with
  | Some made => ((Conn made, None), f)
  | None =>
      match constructor f name with
      | (made, None) =>
          ((Conn made, None), mkFactory (<[name:=made]> (cache f)) (constructor f))
      | (_, Some err) => ((NilIface, Some err), f)
      end
  end.

End di.

(** ** Package otetcd *)

(** The part of [clientv3] the package uses. *)
Module clientv3.

Inductive DialOption :=
| GivenDialOption (o : nat)
| WithUnaryInterceptor (tracer : nat)    (* of OpenTracingClientInterceptor *)
| WithStreamInterceptor (tracer : nat).  (* of OpenTracingStreamClientInterceptor *)

Record Config := mkConfig {
  Endpoints : list string;
  AutoSyncInterval : Z;
  DialTimeout : Z;
  DialKeepAliveTime : Z;
  DialKeepAliveTimeout : Z;
  MaxCallSendMsgSize : Z;
  MaxCallRecvMsgSize : Z;
  TLS : option nat;
  Username : string;
  Password : string;
  RejectOldCluster : bool;
  DialOptions : list DialOption;
  Context : option nat;
  LogConfig : option nat;
  PermitWithoutStream : bool
}.

End clientv3.

Module otetcd.

(** [config.Duration], a struct around a [time.Duration]. *)
Record Duration := mkDuration { ns : Z }.

(** The configuration entry of one etcd client, with the fields the
    factory reads. *)
Record Option := mkOption {
  Endpoints : list string;
  AutoSyncInterval : Duration;
  DialTimeout : Duration;
  DialKeepAliveTime : Duration;
  DialKeepAliveTimeout : Duration;
  MaxCallSendMsgSize : Z;
  MaxCallRecvMsgSize : Z;
  TLS : option nat;
  Username : string;
  Password : string;
  RejectOldCluster : bool;
  DialOptions : list clientv3.DialOption;
  Context : option nat;
  LogConfig : option nat;
  PermitWithoutStream : bool
}.

(** [Option{Endpoints: endpoints}]: every other field at its zero value. *)
Definition Option_with_endpoints (endpoints : list string) : Option :=
  mkOption endpoints (mkDuration 0) (mkDuration 0) (mkDuration 0) (mkDuration 0)
    0 0 None "" "" false [] None None false.

Definition duration (d : Duration) : Z := ns d.

(** The fields of [factoryIn] the builder reads; both are optional. *)
Record factoryIn := mkFactoryIn {
  Interceptor : option (string → clientv3.Config → clientv3.Config);
  Tracer : option nat
}.

Section Builder.

(** [clientv3.New], of the client library: a client and an error. *)
Variable New : clientv3.Config → option nat * error.
(** The environment of the process. *)
Variable env : gmap string string.
Variable p : factoryIn.
(** What [p.Conf.Unmarshal("etcd", &dbConfs)] left in [dbConfs]. *)
Variable dbConfs : gmap string Option.

(** The lookup at the head of the builder: the configuration to build
    from, or the error the builder returns. *)
Definition resolve (name : string) : Option + string :=
  match dbConfs !! name with
  | Some conf => inl conf
  | None =>
      if decide (name ≠ "default") then
        inr ("etcd configuration " +:+ name +:+ " not valid")
      else if decide (Getenv env "ETCD_ADDR" ≠ "") then
        inl (Option_with_endpoints [Getenv env "ETCD_ADDR"])
      else
        inl (Option_with_endpoints ["127.0.0.1:6379"])
  end.

(** [co := clientv3.Config{...}] *)
Definition config_of (conf : Option) : clientv3.Config :=
  clientv3.mkConfig (Endpoints conf)
    (duration (AutoSyncInterval conf)) (duration (DialTimeout conf))
    (duration (DialKeepAliveTime conf)) (duration (DialKeepAliveTimeout conf))
    (MaxCallSendMsgSize conf) (MaxCallRecvMsgSize conf) (TLS conf)
    (Username conf) (Password conf) (RejectOldCluster conf)
    (DialOptions conf) (Context conf) (LogConfig conf)
    (PermitWithoutStream conf).

(** [if p.Tracer != nil { co.DialOptions = append(co.DialOptions, ...) }] *)
Definition traced (co : clientv3.Config) : clientv3.Config :=
  match Tracer p with
  | Some tracer =>
      clientv3.mkConfig (clientv3.Endpoints co)
        (clientv3.AutoSyncInterval co) (clientv3.DialTimeout co)
        (clientv3.DialKeepAliveTime co) (clientv3.DialKeepAliveTimeout co)
        (clientv3.MaxCallSendMsgSize co) (clientv3.MaxCallRecvMsgSize co)
        (clientv3.TLS co) (clientv3.Username co) (clientv3.Password co)
        (clientv3.RejectOldCluster co)
        (clientv3.DialOptions co
           ++ [clientv3.WithUnaryInterceptor tracer;
               clientv3.WithStreamInterceptor tracer])
        (clientv3.Context co) (clientv3.LogConfig co)
        (clientv3.PermitWithoutStream co)
  | None => co
  end.

(** [if p.Interceptor != nil { p.Interceptor(name, &co) }] *)
Definition intercepted (name : string) (co : clientv3.Config) : clientv3.Config :=
  match Interceptor p with
  | Some f => f name co
  | None => co
  end.

(** The function handed to [di.NewFactory] by [provideFactory]. *)
Definition construct (name : string) : di.Pair * error :=
  match resolve name with
  | inr err => (di.zero_Pair, Some err)
  | inl conf =>
      let co := intercepted name (traced (config_of conf)) in
      let client := fst (New co) in      (* client, _ := clientv3.New(co) *)
      (di.mkPair (EtcdClientPtr client) (Some (EtcdClientPtr client)), None)
  end.

End Builder.

(** The body of [Factory.Make] from the return of [r.Factory.Make(name)]
    on: the error is passed on with a nil client, and otherwise the
    client is asserted to be a [*clientv3.Client], which panics on a
    value of another type. *)
Definition narrow (res : Iface * error) : outcome (option nat * error) :=
  match res with
  | (_, Some err) => Returns (None, Some err)
  | (EtcdClientPtr client, None) => Returns (client, None)
  | (_, None) => Panics
  end.

Definition Make (r : di.Factory) (name : string)
  : outcome (option nat * error) * di.Factory :=
  let (res, r') := di.Make r name in (narrow res, r').

(** [provideDefaultClient] *)
Definition provideDefaultClient (maker : di.Factory)
  : outcome (option nat * error) * di.Factory :=
  Make maker "default".

(** type ExportedConfig struct { Name; Data; Comment }, with the data of
    this package: configurations by name under a top-level key. *)
Record ExportedConfig := mkExportedConfig {
  Name : string;
  Data : gmap string (gmap string Option);
  Comment : string
}.

Definition provideConfig : list ExportedConfig :=
  [ mkExportedConfig "otetcd"
      {[ "etcd" :=
           {[ "default" :=
                mkOption ["127.0.0.1:2379"]
                  (mkDuration 0) (mkDuration 0) (mkDuration 0) (mkDuration 0)
                  0 0 None "" "" false [] None None false ]} ]}
      "The configuration for ETCD." ].

(** The entry for "default" under "etcd" in what [provideConfig]
    exports. *)
Definition exported_default : option Option :=
  match provideConfig with
  | [exported] => Data exported !! "etcd" ≫= λ confs, confs !! "default"
  | _ => None
  end.

End otetcd.

(** ** Package otredis *)

Module otredis.

(** [redis.UniversalOptions], with the fields the package reads. *)
Record UniversalOptions := mkUniversalOptions {
  Addrs : list string;
  DB : Z
}.

(** The fields of [RedisIn] the builder reads; both are optional. *)
Record RedisIn := mkRedisIn {
  Interceptor : option (string → UniversalOptions → UniversalOptions);
  Tracer : option nat
}.

Section Builder.

(** [redis.NewUniversalClient], of the client library: it returns a
    client and no error. *)
Variable NewUniversalClient : UniversalOptions → nat.
Variable p : RedisIn.
(** What [p.Conf.Unmarshal("redis", &dbConfs)] left in [dbConfs]. *)
Variable dbConfs : gmap string UniversalOptions.

(** The function handed to [async.NewFactory] by [ProvideRedis]. *)
Definition construct (name : string) : di.Pair * error :=
  match dbConfs !! name with
  | None => (di.zero_Pair, Some ("redis configuration " +:+ name +:+ " not valid"))
  | Some conf =>
      let conf := match Interceptor p with
                  | Some f => f name conf
                  | None => conf
                  end in
      let client := NewUniversalClient conf in
      let hooks := match Tracer p with
                   | Some tracer => [mkHook (Addrs conf) (DB conf) tracer]  (* client.AddHook(hook{...}) *)
                   | None => []
                   end in
      (di.mkPair (RedisUniversalClient client hooks)
                 (Some (RedisUniversalClient client hooks)), None)
  end.

End Builder.

(** The body of [Factory.Make] from the return of [r.Factory.Make(name)]
    on; the assertion is to the interface [redis.UniversalClient]. *)
Definition narrow (res : Iface * error) : outcome (Iface * error) :=
  match res with
  | (_, Some err) => Returns (NilIface, Some err)
  | (RedisUniversalClient client hooks, None) =>
      Returns (RedisUniversalClient client hooks, None)
  | (_, None) => Panics
  end.

Definition Make (r : di.Factory) (name : string)
  : outcome (Iface * error) * di.Factory :=
  let (res, r') := di.Make r name in (narrow res, r').

(** type RedisOut struct: the factory (as Maker and as Factory) and the
    default client. *)
Record RedisOut := mkRedisOut { Factory : di.Factory; Client : Iface }.

(** [ProvideRedis], from the construction of the factory on: the error
    of [redisFactory.Make("default")] is dropped and the client, nil on
    an error, is put in the result. *)
Definition ProvideRedis (NewUniversalClient : UniversalOptions → nat)
    (p : RedisIn) (dbConfs : gmap string UniversalOptions) : outcome RedisOut :=
  let redisFactory := di.NewFactory (construct NewUniversalClient p dbConfs) in
  match Make redisFactory "default" with
  | (Returns (defaultRedisClient, _), redisFactory') =>
      Returns (mkRedisOut redisFactory' defaultRedisClient)
  | (Panics, _) => Panics
  end.

End otredis.

(** ** Counting the steps of Shutdown *)

Module shutdown.

Import container.

#[global] Instance Pc_eq_dec : EqDecision Pc.
Proof. solve_decision. Defined.

(** Runs of [Shutdown] with the number of their steps. *)
Inductive steps_in : nat → Sd → Sd → Prop :=
| steps_in_O s : steps_in 0 s s
| steps_in_S n s1 s2 s3 : steps_in n s1 s2 → step s2 s3 → steps_in (S n) s1 s3.

(** The steps a goroutine has before it: call, return, [wg.Done()]. *)
Definition ahead (st : GoState) : nat :=
  match st with
  | Spawned => 3
  | Running => 2
  | Returned => 1
  | Finished => 0
  end.

(** The steps the caller has before it when the slice has [K] closers:
    two per iteration of the loop, and the return from [wg.Wait()]. *)
Definition caller_ahead (K : nat) (c : Pc) : nat :=
  match c with
  | AtLoop i => 2 * (K - i) + 1
  | AtGo i => 2 * (K - i)
  | Exited => 0
  end.

(** The steps left to a state of [Shutdown] over [K] closers: those of
    the caller, of the goroutines started, and of the ones to start. *)
Definition remaining (K : nat) (s : Sd) : nat :=
  caller_ahead K (pc s) + 3 * (K - length (gos s)) + sum_list (ahead <$> gos s).

End shutdown.

(** ** Package key *)

Module key.

(** type KeyManager struct { Prefixes []string }; a slice is taken by
    its elements. *)
Record KeyManager := mkKeyManager { Prefixes : list string }.

(** The interface [contract.Keyer], by the method this package calls. *)
Class Keyer (K : Type) := Spread : K → list string.

(** [strings.Join], of the standard library. *)
Fixpoint Join (elems : list string) (sep : string) : string :=
  match elems with
  | [] => ""
  | x :: rest =>
      match rest with
      | [] => x
      | _ :: _ => x +:+ sep +:+ Join rest sep
      end
  end.

Definition NewManager (parts : list string) : KeyManager :=
  mkKeyManager parts.

(** [func (k KeyManager) Key(delimiter string, parts ...string) string] *)
Definition Key (k : KeyManager) (delimiter : string) (parts : list string) : string :=
  let parts := Prefixes k ++ parts in
  Join parts delimiter.

(** [func (k KeyManager) Spread() []string] *)
#[global] Instance KeyManager_Spread : Keyer KeyManager := λ k, Prefixes k.

(** [func (k KeyManager) With(parts ...string) KeyManager] *)
Definition KeyManager_With (k : KeyManager) (parts : list string) : KeyManager :=
  let newKeyManager := mkKeyManager [] in
  mkKeyManager (Prefixes k ++ parts).

(** [func With(k contract.Keyer, parts ...string) KeyManager] *)
Definition With `{Keyer K} (k : K) (parts : list string) : KeyManager :=
  let km := mkKeyManager [] in
  let parts := Spread k ++ parts in
  KeyManager_With km parts.

(** A value of type [interface{}] in the slice SpreadInterface makes:
    nil, or a string. *)
Inductive boxed :=
| Nil
| Str (s : string).

(** The loop of SpreadInterface over the indices [idx]: [out[i] =
    interface{}(spreader[i])], which panics when [i] is out of range of
    either slice. *)
Fixpoint SpreadInterface_loop (spreader : list string) (idx : list nat)
    (out : list boxed) : outcome (list boxed) :=
  match idx with
  | [] => Returns out
  | i :: idx' =>
      match spreader !! i with
      | Some s =>
          if decide (i < length out)
          then SpreadInterface_loop spreader idx' (<[i:=Str s]> out)
          else Panics
      | None => Panics
      end
  end.

(** [func SpreadInterface(k contract.Keyer) []interface{}] *)
Definition SpreadInterface `{Keyer K} (k : K) : outcome (list boxed) :=
  let spreader := Spread k in
  let out := replicate (length spreader) Nil in
  SpreadInterface_loop spreader (seq 0 (length (Spread k))) out.

(** The loop of KeepOdd, from index [i] on. *)
Fixpoint KeepOdd_loop (i : nat) (spreader : list string) (km : KeyManager) : KeyManager :=
  match spreader with
  | [] => km
  | x :: rest =>
      KeepOdd_loop (S i) rest
        (if decide (i mod 2 = 1) then mkKeyManager (Prefixes km ++ [x]) else km)
  end.

(** [func KeepOdd(k contract.Keyer) contract.Keyer] *)
Definition KeepOdd `{Keyer K} (k : K) : KeyManager :=
  let spreader := Spread k in
  let km := mkKeyManager [] in
  KeepOdd_loop 0 spreader km.

(** Every second element of a list, from the first on ([odd] true) or
    from the second on ([odd] false). *)
Fixpoint every_second (odd : bool) (l : list string) : list string :=
  match l with
  | [] => []
  | x :: rest => if odd then x :: every_second false rest else every_second true rest
  end.

(** Alternating keys and values, as NewManager takes them. *)
Definition alternating (kvs : list (string * string)) : list string :=
  flat_map (λ kv, [kv.1; kv.2]) kvs.

End key.

(** * Properties of the container *)

Import container.

Section ContainerFacts.

Implicit Types (c : Container) (w : World) (module : ModuleValue)
  (p : Func) (m : Method) (ms : list ModuleValue) (t : list Event).

Lemma range_call l h w :
  range l (λ p, call p h) w = (tt, mkWorld (heap w) (trace w ++ map (λ p, Call p h) l)).
Proof.
  revert w. induction l as [|p l IH]; intros [c t]; simpl.
  - by rewrite app_nil_r.
  - unfold mbind, M_bind, bind, call at 1. simpl. rewrite IH. simpl.
    by rewrite <- app_assoc.
Qed.

Lemma Apply_run m f ptr w :
  Apply m = Some f →
  f ptr w = (tt, mkWorld (heap w)
                   (trace w ++ map (λ p, Call p (host m ptr)) (providers m (heap w)))).
Proof.
  destruct m; intros [= <-]; simpl;
    unfold ApplyRouter, ApplyGRPCServer, ApplyCron, ApplyRunGroup, ApplyRootCommand;
    unfold mbind, M_bind, bind, load; simpl; apply range_call.
Qed.

Lemma AddModule_providers m module w :
  providers m (heap (exec (AddModule module) w))
  = providers m (heap w) ++ appended m module.
Proof.
  destruct w as [c t], module as [f|recv methods]; unfold exec, AddModule; simpl.
  - destruct m; simpl; by rewrite ?app_nil_r.
  - unfold mbind, M_bind, bind, if_ok.
    do 6 (case_bool_decide; simpl); destruct m; simpl;
      repeat case_bool_decide; simpl; rewrite ?app_nil_r; try done.
Qed.

Lemma AddModule_trace module w : trace (exec (AddModule module) w) = trace w.
Proof.
  destruct w as [c t], module as [f|recv methods]; unfold exec, AddModule; simpl.
  - done.
  - unfold mbind, M_bind, bind, if_ok. by do 6 (case_bool_decide; simpl).
Qed.

Lemma AddModule_modules module w :
  modules (heap (exec (AddModule module) w))
  = modules (heap w) ++ match module with FuncValue _ => [] | _ => [module] end.
Proof.
  destruct w as [c t], module as [f|recv methods]; unfold exec, AddModule; simpl.
  - by rewrite app_nil_r.
  - unfold mbind, M_bind, bind, if_ok. by do 6 (case_bool_decide; simpl).
Qed.

Lemma registration_providers m ms w :
  providers m (heap (exec (range ms AddModule) w))
  = providers m (heap w) ++ flat_map (appended m) ms.
Proof.
  revert w. induction ms as [|module ms IH]; intros w; simpl.
  - by rewrite app_nil_r.
  - unfold exec, mbind, M_bind, bind.
    destruct (AddModule module w) as [[] w'] eqn:E. fold (exec (range ms AddModule) w').
    rewrite IH. replace w' with (exec (AddModule module) w) by (unfold exec; by rewrite E).
    by rewrite AddModule_providers, <- app_assoc.
Qed.

Lemma appended_satisfies m module :
  m ≠ ProvideCloser ∨ assert_func module = None →
  appended m module = if decide (satisfies m module) then [callback m module] else [].
Proof.
  destruct module as [f|recv methods]; simpl.
  - intros [H|[=]]. by case_decide.
  - intros _. case_bool_decide; case_decide; done.
Qed.

Lemma registered_providers m ms :
  m ≠ ProvideCloser →
  providers m (registered ms) = map (callback m) (filter (satisfies m) ms).
Proof.
  intros Hm. unfold registered. rewrite registration_providers.
  replace (providers m (heap (mkWorld zero []))) with (@nil Func) by by destruct m.
  simpl. induction ms as [|module ms IH]; [done|]. simpl.
  rewrite appended_satisfies by auto. rewrite filter_cons.
  case_decide; simpl; by rewrite IH.
Qed.

Lemma Apply_registered m f ptr ms t :
  Apply m = Some f →
  f ptr (mkWorld (registered ms) t)
  = (tt, mkWorld (registered ms) (t ++ dispatched m ptr ms)).
Proof.
  intros Hf. rewrite (Apply_run m f ptr _ Hf). simpl.
  rewrite registered_providers by (by destruct m).
  unfold dispatched. by rewrite map_map.
Qed.

End ContainerFacts.

(** C1. Whatever modules were registered, in whatever order, each of
    ApplyRouter, ApplyGRPCServer, ApplyCron, ApplyRootCommand and
    ApplyRunGroup calls, with the host it was given, the callback of
    every registered module that satisfies its capability and of no
    other, first registered first, once per call of the Apply method:
    the trace grows by exactly [dispatched], and the container is left
    as it was, so that a second call does the same again. *)
Theorem apply_dispatches_in_registration_order
    (ms : list ModuleValue) (ptr : nat) (t : list Event) :
  ApplyRouter ptr (mkWorld (registered ms) t)
    = (tt, mkWorld (registered ms) (t ++ dispatched ProvideHttp ptr ms)) ∧
  ApplyGRPCServer ptr (mkWorld (registered ms) t)
    = (tt, mkWorld (registered ms) (t ++ dispatched ProvideGrpc ptr ms)) ∧
  ApplyCron ptr (mkWorld (registered ms) t)
    = (tt, mkWorld (registered ms) (t ++ dispatched ProvideCron ptr ms)) ∧
  ApplyRootCommand ptr (mkWorld (registered ms) t)
    = (tt, mkWorld (registered ms) (t ++ dispatched ProvideCommand ptr ms)) ∧
  ApplyRunGroup ptr (mkWorld (registered ms) t)
    = (tt, mkWorld (registered ms) (t ++ dispatched ProvideRunGroup ptr ms)).
Proof.
  repeat split; by apply Apply_registered.
Qed.

(** The scenario of three modules: A serves HTTP and closes, B provides
    cron jobs, C is a bare teardown function. *)
Example scenario_dispatch :
  let ms := [ObjValue 1 [ProvideHttp; ProvideCloser]; ObjValue 2 [ProvideCron]; FuncValue 3] in
  exec (ApplyRouter 10) (mkWorld (registered ms) [])
    = mkWorld (registered ms) [Call (MethodValue 1 ProvideHttp) (Router 10)] ∧
  exec (ApplyCron 11) (mkWorld (registered ms) [])
    = mkWorld (registered ms) [Call (MethodValue 2 ProvideCron) (Crontab 11)] ∧
  closerProviders (registered ms) = [MethodValue 1 ProvideCloser; FuncLit 3] ∧
  modules (registered ms) = [ObjValue 1 [ProvideHttp; ProvideCloser]; ObjValue 2 [ProvideCron]].
Proof. repeat split; reflexivity. Qed.

(** C2, as stated, fails: a bare [func()] handed to AddModule is added
    to the closers and AddModule returns at once, before the append to
    the module collection; [Modules()] does not have it. *)
Lemma bare_func_not_in_modules :
  ¬ (∀ (module : ModuleValue) (w : World),
       eval Modules (exec (AddModule module) w) = eval Modules w ++ [module]).
Proof.
  intros H. specialize (H (FuncValue 0) (mkWorld zero [])).
  vm_compute in H. discriminate.
Qed.

(** C2, amended. A module that is not a bare [func()] is always appended
    to the module collection returned by [Modules()], whatever
    capabilities it satisfies. A bare [func()] is appended to the
    closers only: the other five sequences and the module collection
    are left as they were. *)
Theorem AddModule_modules_collection :
  (∀ (recv : nat) (methods : list Method) (w : World),
     eval Modules (exec (AddModule (ObjValue recv methods)) w)
     = eval Modules w ++ [ObjValue recv methods]) ∧
  (∀ (f : nat) (w : World),
     let c := heap w in
     exec (AddModule (FuncValue f)) w
     = mkWorld (mkContainer (httpProviders c) (grpcProviders c)
                  (closerProviders c ++ [FuncLit f]) (runProviders c)
                  (modules c) (cronProviders c) (commandProviders c))
               (trace w)).
Proof.
  split.
  - intros recv methods w. unfold eval at 1, Modules. simpl.
    unfold mbind, M_bind, bind, load. simpl.
    by rewrite AddModule_modules.
  - by intros f [c t].
Qed.

(** C7. A module that satisfies two capabilities has its callback
    appended to the sequence of each of them by the one registration,
    and the Apply method of each of the two then calls it, after the
    callbacks that were there before: being classified under one
    capability does not keep it from the other. *)
Theorem AddModule_classifies_independently
    (module : ModuleValue) (m1 m2 : Method) (w : World) :
  m1 ≠ m2 → satisfies m1 module → satisfies m2 module →
  let w' := exec (AddModule module) w in
  providers m1 (heap w') = providers m1 (heap w) ++ [callback m1 module] ∧
  providers m2 (heap w') = providers m2 (heap w) ++ [callback m2 module] ∧
  (∀ f ptr, Apply m1 = Some f →
     trace (exec (f ptr) w')
     = trace (exec (f ptr) w) ++ [Call (callback m1 module) (host m1 ptr)]) ∧
  (∀ f ptr, Apply m2 = Some f →
     trace (exec (f ptr) w')
     = trace (exec (f ptr) w) ++ [Call (callback m2 module) (host m2 ptr)]).
Proof.
  intros _ H1 H2 w'.
  assert (Hprov : ∀ m, satisfies m module →
            providers m (heap w') = providers m (heap w) ++ [callback m module]).
  { intros m Hm. unfold w'. rewrite AddModule_providers.
    rewrite appended_satisfies by (right; by destruct module).
    by rewrite decide_True. }
  assert (Hcall : ∀ m, satisfies m module → ∀ f ptr, Apply m = Some f →
            trace (exec (f ptr) w')
            = trace (exec (f ptr) w) ++ [Call (callback m module) (host m ptr)]).
  { intros m Hm f ptr Hf. unfold exec.
    rewrite !(Apply_run m f ptr _ Hf). simpl. rewrite (Hprov m Hm).
    unfold w'. rewrite AddModule_trace, map_app. simpl. by rewrite app_assoc. }
  auto.
Qed.

Lemma AddModule_classifies_independently_witness :
  let module := ObjValue 1 [ProvideHttp; ProvideCron] in
  let w := mkWorld zero [] in
  let w' := exec (AddModule module) w in
  providers ProvideHttp (heap w') = [MethodValue 1 ProvideHttp] ∧
  providers ProvideCron (heap w') = [MethodValue 1 ProvideCron] ∧
  trace (exec (ApplyRouter 5) w') = [Call (MethodValue 1 ProvideHttp) (Router 5)] ∧
  trace (exec (ApplyCron 6) w') = [Call (MethodValue 1 ProvideCron) (Crontab 6)].
Proof.
  intros module w w'.
  destruct (AddModule_classifies_independently module ProvideHttp ProvideCron w)
    as (Ha & Hb & Hc & Hd).
  - discriminate.
  - apply (bool_decide_unpack _). reflexivity.
  - apply (bool_decide_unpack _). reflexivity.
  - split; [exact Ha|]. split; [exact Hb|].
    split; [exact (Hc ApplyRouter 5 eq_refl) | exact (Hd ApplyCron 6 eq_refl)].
Defined.

(** * Shutdown: what every run goes through *)

Section ShutdownInvariant.

Implicit Types (cl : list Func) (g : list GoState) (st : GoState)
  (p : Func) (s : Sd) (w : World).

Lemma emitted_from_spawn j cl g :
  emitted_from j cl (g ++ [Spawned]) = emitted_from j cl g.
Proof.
  revert j cl. induction g as [|st g IH]; intros j [|p cl]; simpl; try done.
  - by destruct cl.
  - by rewrite IH.
Qed.

Lemma emitted_from_advance j cl g k p st st' (extra : nat → list Event) :
  g !! k = Some st → cl !! k = Some p →
  (∀ i, emitted i p st' = emitted i p st ++ extra i) →
  emitted_from j cl (<[k:=st']> g) ≡ₚ emitted_from j cl g ++ extra (j + k).
Proof.
  intros Hg Hcl Hex. revert j cl k Hg Hcl.
  induction g as [|st0 g IH]; intros j [|p0 cl] [|k] Hg Hcl; simplify_eq/=.
  - rewrite Hex, Nat.add_0_r, <- !app_assoc.
    apply Permutation_app_head, Permutation_app_comm.
  - rewrite (IH (S j) cl k Hg Hcl), <- app_assoc.
    by replace (S j + k) with (j + S k) by lia.
Qed.

Lemma pending_spawn g : pending (g ++ [Spawned]) = S (pending g).
Proof.
  unfold pending. rewrite filter_app, length_app.
  rewrite filter_cons, decide_True by done. simpl. lia.
Qed.

Lemma pending_live g k st st' :
  g !! k = Some st → st ≠ Finished → st' ≠ Finished →
  pending (<[k:=st']> g) = pending g.
Proof.
  unfold pending. revert k. induction g as [|st0 g IH]; intros [|k] Hg H1 H2;
    simplify_eq/=; rewrite !filter_cons.
  - repeat case_decide; simpl; congruence.
  - case_decide; simpl; by rewrite (IH k).
Qed.

Lemma pending_finish g k st :
  g !! k = Some st → st ≠ Finished →
  S (pending (<[k:=Finished]> g)) = pending g.
Proof.
  unfold pending. revert k. induction g as [|st0 g IH]; intros [|k] Hg H1;
    simplify_eq/=; rewrite !filter_cons.
  - repeat case_decide; simpl; congruence.
  - case_decide; simpl; by rewrite <- (IH k).
Qed.

Lemma pending_none g : pending g = 0 → g = replicate (length g) Finished.
Proof.
  unfold pending. induction g as [|st g IH]; [done|].
  rewrite filter_cons. case_decide as Hst; simpl; [done|].
  intros H. f_equal; [|by apply IH].
  by destruct (decide (st = Finished)).
Qed.

Lemma emitted_from_finished j cl :
  emitted_from j cl (replicate (length cl) Finished)
  = flat_map (λ jp, [enter jp; leave jp]) (imap (λ i, pair (j + i)) cl).
Proof.
  revert j. induction cl as [|p cl IH]; intros j; [done|]. simpl.
  rewrite IH, Nat.add_0_r. unfold enter at 1, leave at 1. simpl. do 3 f_equal.
  apply imap_ext. intros i q _. simpl. f_equal. lia.
Qed.

Lemma step_inv w0 s s' : Shutdown_inv w0 s → step s s' → Shutdown_inv w0 s'.
Proof.
  intros (Hheap & (evs & Htr & Hperm) & Hpc) Hstep.
  destruct Hstep; unfold Shutdown_inv; simpl in *.
  - destruct Hpc as (Hlen & Hle & Hwg). split; [done|]. split; [eauto|].
    rewrite Hheap in *. apply lookup_lt_Some in H. lia.
  - destruct Hpc as (Hlen & Hlt & Hwg). split; [done|]. split.
    + exists evs. by rewrite emitted_from_spawn.
    + rewrite length_app, pending_spawn. simpl. lia.
  - destruct Hpc as (Hlen & Hle & Hwg). split; [done|]. split; [eauto|].
    rewrite Hheap in *. apply lookup_ge_None in H. lia.
  - rewrite Hheap in *. split; [done|]. split.
    + exists (evs ++ [Enter j p]). rewrite Htr, app_assoc. split; [done|].
      rewrite (emitted_from_advance 0 _ g j p Spawned Running (λ i, [Enter i p])) by done.
      simpl. by apply Permutation_app_tail.
    + rewrite length_insert, (pending_live g j Spawned Running) by done. done.
  - rewrite Hheap in *. split; [done|]. split.
    + exists (evs ++ [Leave j p]). rewrite Htr, app_assoc. split; [done|].
      rewrite (emitted_from_advance 0 _ g j p Running Returned (λ i, [Leave i p])) by done.
      simpl. by apply Permutation_app_tail.
    + rewrite length_insert, (pending_live g j Running Returned) by done. done.
  - split; [done|]. split.
    + exists evs. split; [done|].
      assert (j < length g) as Hj by by eapply lookup_lt_Some.
      assert (length g ≤ length (closerProviders (heap w0))) as Hle
        by (destruct c; intuition lia).
      destruct (closerProviders (heap w0) !! j) as [p|] eqn:Hp.
      * rewrite (emitted_from_advance 0 _ g j p Returned Finished (λ _, [])) by
          (done || by intros; rewrite app_nil_r).
        by rewrite app_nil_r.
      * apply lookup_ge_None in Hp. lia.
    + rewrite length_insert.
      pose proof (pending_finish g j Returned H ltac:(done)) as Hf.
      destruct c; intuition lia.
Qed.

End ShutdownInvariant.

Section ShutdownRuns.

Implicit Types (cl : list Func) (g : list GoState) (st : GoState)
  (p : Func) (s : Sd) (w : World) (σ : list (nat * Func)).

Lemma steps_inv w0 s : steps (Shutdown_start w0) s → Shutdown_inv w0 s.
Proof.
  intros H. remember (Shutdown_start w0) as s0 eqn:E.
  induction H as [|s1 s2 s3 _ IH Hstep]; subst.
  - unfold Shutdown_inv, pending; simpl. split; [done|]. split; [|lia].
    exists []. rewrite app_nil_r. split; [done|].
    by destruct (closerProviders (heap w0)).
  - eapply step_inv; eauto.
Qed.

Lemma steps_trans s1 s2 s3 : steps s1 s2 → steps s2 s3 → steps s1 s3.
Proof.
  intros H12 H23. induction H23 as [|a b c Hab IH Hbc]; [done|].
  eapply steps_more; [by apply IH|done].
Qed.

Lemma steps_one s1 s2 : step s1 s2 → steps s1 s2.
Proof. intros H. eapply steps_more; [apply steps_refl|done]. Qed.

Lemma tasks_fst_from j cl :
  (imap (λ i, pair (j + i)) cl).*1 = seq j (length cl).
Proof.
  revert j. induction cl as [|p cl IH]; intros j; [done|]. simpl.
  rewrite Nat.add_0_r. f_equal. rewrite <- IH. f_equal.
  apply imap_ext. intros i q _. simpl. f_equal. lia.
Qed.

Lemma tasks_fst cl : (tasks cl).*1 = seq 0 (length cl).
Proof. apply (tasks_fst_from 0). Qed.

Lemma elem_of_tasks cl j p : (j, p) ∈ tasks cl ↔ cl !! j = Some p.
Proof.
  unfold tasks. rewrite elem_of_lookup_imap. split.
  - by intros (i & q & [= -> ->] & H).
  - intros H. by exists j, p.
Qed.

Lemma finished_trace j cl p :
  entered p (flat_map (λ jp, [enter jp; leave jp]) (imap (λ i, pair (j + i)) cl))
  = length (filter (λ q, q = p) cl).
Proof.
  unfold entered. revert j. induction cl as [|q cl IH]; intros j; [done|].
  rewrite imap_cons, (filter_cons _ q). simpl.
  replace (imap ((λ i, pair (j + i)) ∘ S) cl) with (imap (λ i, pair (S j + i)) cl)
    by (apply imap_ext; intros i r _; simpl; f_equal; lia).
  rewrite !filter_cons. simpl.
  case_decide; simpl; [f_equal|]; apply (IH (S j)).
Qed.

(** Every run that has left Shutdown. *)
Lemma Shutdown_exited w0 s :
  steps (Shutdown_start w0) s → pc s = Exited →
  heap (world s) = heap w0 ∧
  gos s = replicate (length (closerProviders (heap w0))) Finished ∧
  ∃ evs, trace (world s) = trace w0 ++ evs ∧
         evs ≡ₚ flat_map (λ jp, [enter jp; leave jp]) (tasks (closerProviders (heap w0))).
Proof.
  intros Hrun Hpc. destruct (steps_inv _ _ Hrun) as (Hheap & (evs & Htr & Hperm) & Hc).
  rewrite Hpc in Hc. destruct Hc as [Hlen Hpend].
  apply pending_none in Hpend. rewrite Hlen in Hpend.
  split; [done|]. split; [done|]. exists evs. split; [done|].
  rewrite Hperm, Hpend. by rewrite (emitted_from_finished 0).
Qed.

Lemma Shutdown_entered w0 s evs p :
  steps (Shutdown_start w0) s → pc s = Exited →
  trace (world s) = trace w0 ++ evs →
  entered p evs = length (filter (λ q, q = p) (closerProviders (heap w0))).
Proof.
  intros Hrun Hpc Htr.
  destruct (Shutdown_exited _ _ Hrun Hpc) as (_ & _ & evs' & Htr' & Hperm).
  rewrite Htr' in Htr. apply app_inv_head in Htr. subst evs'.
  unfold entered. rewrite Hperm. apply (finished_trace 0).
Qed.

(** The loop: one goroutine per closer, the counter at their number. *)
Lemma spawn_all w i :
  i ≤ length (closerProviders (heap w)) →
  steps (Shutdown_start w) (mkSd w (AtLoop i) (Z.of_nat i) (replicate i Spawned)).
Proof.
  induction i as [|i IH]; intros Hi; [apply steps_refl|].
  destruct (lookup_lt_is_Some_2 (closerProviders (heap w)) i) as [p Hp]; [lia|].
  eapply steps_more; [eapply steps_more; [apply IH; lia|by eapply step_add]|].
  replace (Z.of_nat (S i)) with (Z.of_nat i + 1)%Z by lia.
  rewrite replicate_S_end. apply step_go.
Qed.

Lemma moved_length st σ g : length (moved st σ g) = length g.
Proof.
  revert g. induction σ as [|jp σ IH]; intros g; [done|]. simpl.
  by rewrite IH, length_insert.
Qed.

Lemma moved_lookup_other st σ g k : k ∉ σ.*1 → moved st σ g !! k = g !! k.
Proof.
  revert g. induction σ as [|jp σ IH]; intros g Hk; [done|].
  rewrite fmap_cons, not_elem_of_cons in Hk. destruct Hk as [Hne Hk]. simpl.
  rewrite IH by done. by rewrite list_lookup_insert_ne.
Qed.

Lemma moved_lookup st σ g k :
  k ∈ σ.*1 → k < length g → moved st σ g !! k = Some st.
Proof.
  revert g. induction σ as [|jp σ IH]; intros g Hk Hlt; [by apply elem_of_nil in Hk|].
  simpl. destruct (decide (k ∈ σ.*1)) as [Hin|Hnin].
  - apply IH; [done|by rewrite length_insert].
  - rewrite fmap_cons, elem_of_cons in Hk. destruct Hk as [->|]; [|done].
    rewrite (moved_lookup_other st σ _ _ Hnin). by apply list_lookup_insert_eq.
Qed.

Lemma batch (from to : GoState) (ev : nat * Func → list Event) (dn : Z) :
  (∀ w c n g j p, g !! j = Some from → closerProviders (heap w) !! j = Some p →
     step (mkSd w c n g)
          (mkSd (mkWorld (heap w) (trace w ++ ev (j, p))) c (n - dn) (<[j:=to]> g))) →
  ∀ σ w c n g,
    NoDup σ.*1 →
    (∀ j p, (j, p) ∈ σ → g !! j = Some from ∧ closerProviders (heap w) !! j = Some p) →
    steps (mkSd w c n g)
          (mkSd (mkWorld (heap w) (trace w ++ flat_map ev σ)) c
                (n - dn * Z.of_nat (length σ)) (moved to σ g)).
Proof.
  intros Hstep σ. induction σ as [|[j p] σ IH]; intros w c n g Hnd Hσ.
  - simpl. rewrite app_nil_r. replace (n - dn * Z.of_nat 0)%Z with n by lia.
    destruct w; apply steps_refl.
  - rewrite fmap_cons in Hnd. apply NoDup_cons in Hnd as [Hj Hnd].
    destruct (Hσ j p) as [Hg Hp]; [apply list_elem_of_here|].
    eapply steps_trans; [apply steps_one, (Hstep w c n g j p Hg Hp)|].
    specialize (IH (mkWorld (heap w) (trace w ++ ev (j, p))) c (n - dn)%Z (<[j:=to]> g) Hnd).
    simpl in IH. rewrite <- app_assoc in IH.
    replace (n - dn * Z.of_nat (length ((j, p) :: σ)))%Z
      with (n - dn - dn * Z.of_nat (length σ))%Z by (simpl; lia).
    apply IH. intros k q Hk.
    destruct (Hσ k q) as [Hgk Hpk]; [by apply list_elem_of_further|].
    split; [|done]. rewrite list_lookup_insert_ne; [done|].
    intros ->. apply Hj. apply list_elem_of_fmap. by exists (k, q).
Qed.

Lemma moved_all st σ cl g :
  σ ≡ₚ tasks cl → length g = length cl →
  moved st σ g = replicate (length cl) st.
Proof.
  intros Hσ Hlen. apply list_eq. intros k.
  destruct (decide (k < length cl)) as [Hk|Hk].
  - rewrite lookup_replicate_2 by done. apply moved_lookup; [|lia].
    rewrite Hσ, tasks_fst, elem_of_seq. lia.
  - rewrite !lookup_ge_None_2; [done| |]; rewrite ?length_replicate, ?moved_length; lia.
Qed.

Lemma tasks_NoDup σ cl : σ ≡ₚ tasks cl → NoDup σ.*1.
Proof. intros ->. rewrite tasks_fst. apply NoDup_seq. Qed.

(** The closers can be entered in any order, all be in flight together,
    and leave in any other order; Shutdown then returns. *)
Lemma Shutdown_any_order w σ1 σ2 :
  let cl := closerProviders (heap w) in
  σ1 ≡ₚ tasks cl → σ2 ≡ₚ tasks cl →
  ∃ s1 s2,
    steps (Shutdown_start w) s1 ∧
    gos s1 = replicate (length cl) Running ∧
    world s1 = mkWorld (heap w) (trace w ++ map enter σ1) ∧
    steps s1 s2 ∧
    pc s2 = Exited ∧
    world s2 = mkWorld (heap w) (trace w ++ map enter σ1 ++ map leave σ2).
Proof.
  intros cl H1 H2. set (K := length cl).
  pose proof (spawn_all w K (Nat.le_refl _)) as Hspawn.
  assert (Hin : ∀ σ, σ ≡ₚ tasks cl → ∀ j p, (j, p) ∈ σ → j < K ∧ cl !! j = Some p).
  { intros σ Hσ j p Hjp. rewrite Hσ, elem_of_tasks in Hjp.
    split; [by eapply lookup_lt_Some|done]. }
  (* every closer is entered *)
  pose proof (batch Spawned Running (λ jp, [enter jp]) 0
    ltac:(intros w' c n g j p Hg Hp; replace (n - 0)%Z with n by lia;
          by apply step_enter)
    σ1 w (AtLoop K) (Z.of_nat K) (replicate K Spawned) (tasks_NoDup _ _ H1)) as Henter.
  rewrite (moved_all Running σ1 cl) in Henter by (by rewrite ?length_replicate).
  fold K in Henter.
  replace (flat_map (λ jp, [enter jp]) σ1) with (map enter σ1) in Henter
    by (clear; induction σ1; simpl; congruence).
  replace (Z.of_nat K - 0 * Z.of_nat (length σ1))%Z with (Z.of_nat K) in Henter by lia.
  (* every closer returns *)
  set (w1 := mkWorld (heap w) (trace w ++ map enter σ1)) in *.
  pose proof (batch Running Returned (λ jp, [leave jp]) 0
    ltac:(intros w' c n g j p Hg Hp; replace (n - 0)%Z with n by lia;
          by apply step_leave)
    σ2 w1 (AtLoop K) (Z.of_nat K) (replicate K Running) (tasks_NoDup _ _ H2)) as Hleave.
  rewrite (moved_all Returned σ2 cl) in Hleave by (by rewrite ?length_replicate).
  fold K in Hleave.
  replace (flat_map (λ jp, [leave jp]) σ2) with (map leave σ2) in Hleave
    by (clear; induction σ2; simpl; congruence).
  replace (Z.of_nat K - 0 * Z.of_nat (length σ2))%Z with (Z.of_nat K) in Hleave by lia.
  simpl in Hleave. rewrite <- app_assoc in Hleave.
  (* every goroutine calls wg.Done() *)
  set (w2 := mkWorld (heap w) (trace w ++ map enter σ1 ++ map leave σ2)) in *.
  pose proof (batch Returned Finished (λ _, []) 1
    ltac:(intros [c0 t0] c n g j p Hg Hp; simpl; rewrite app_nil_r;
          by apply step_done)
    σ2 w2 (AtLoop K) (Z.of_nat K) (replicate K Returned) (tasks_NoDup _ _ H2)) as Hdone.
  rewrite (moved_all Finished σ2 cl) in Hdone by (by rewrite ?length_replicate).
  fold K in Hdone.
  replace (flat_map (λ _ : nat * Func, @nil Event) σ2) with (@nil Event) in Hdone
    by (clear; induction σ2; simpl; congruence).
  replace (Z.of_nat K - 1 * Z.of_nat (length σ2))%Z with 0%Z in Hdone
    by (rewrite H2; unfold tasks; rewrite length_imap; fold K; lia).
  simpl in Hdone. rewrite app_nil_r in Hdone.
  eexists _, _. split; [|split; [|split; [|split]]].
  - eapply steps_trans; [exact Hspawn|]. apply Henter.
    intros j p Hjp. destruct (Hin σ1 H1 j p Hjp) as [Hlt Hp].
    split; [by apply lookup_replicate_2|done].
  - done.
  - done.
  - eapply steps_trans; [|eapply steps_trans].
    + apply Hleave. intros j p Hjp. destruct (Hin σ2 H2 j p Hjp) as [Hlt Hp].
      split; [by apply lookup_replicate_2|done].
    + apply Hdone. intros j p Hjp. destruct (Hin σ2 H2 j p Hjp) as [Hlt Hp].
      split; [by apply lookup_replicate_2|done].
    + apply steps_one. apply step_wait. simpl. apply lookup_ge_None_2. unfold K. done.
  - done.
Qed.

End ShutdownRuns.

Lemma exec_bind {A B} (x : M A) (k : A → M B) w :
  exec (x ≫= k) w = exec (k (eval x w)) (exec x w).
Proof. unfold exec, eval, mbind, M_bind, bind. by destruct (x w). Qed.

(** C3. Shutdown called in a container with K closers: every run that
    returns has started exactly K goroutines, goroutine j for the closer
    at index j, and each of them has entered its closer once, left it
    and called wg.Done() before the return (the trace of the call is a
    permutation of one Enter and one Leave per closer); until then
    wg.Wait() holds the caller. The goroutines do run together and in no
    fixed order: for any two orders of the closers there is a run in
    which all K closers are entered in the first order and are in flight
    at once, then return in the second order, after which Shutdown
    returns. *)
Theorem Shutdown_runs_closers_concurrently_and_joins (w : World) :
  let cl := closerProviders (heap w) in
  (∀ s, steps (Shutdown_start w) s → pc s = Exited →
     gos s = replicate (length cl) Finished ∧
     ∃ evs, trace (world s) = trace w ++ evs ∧
            evs ≡ₚ flat_map (λ jp, [enter jp; leave jp]) (tasks cl)) ∧
  (∀ σ1 σ2, σ1 ≡ₚ tasks cl → σ2 ≡ₚ tasks cl →
     ∃ s1 s2,
       steps (Shutdown_start w) s1 ∧
       gos s1 = replicate (length cl) Running ∧
       world s1 = mkWorld (heap w) (trace w ++ map enter σ1) ∧
       steps s1 s2 ∧
       pc s2 = Exited ∧
       world s2 = mkWorld (heap w) (trace w ++ map enter σ1 ++ map leave σ2)).
Proof.
  intros cl. split.
  - intros s Hrun Hpc. by destruct (Shutdown_exited w s Hrun Hpc) as (_ & Hg & Hevs).
  - apply Shutdown_any_order.
Qed.

Lemma Shutdown_runs_closers_concurrently_and_joins_witness :
  let a := FuncLit 1 in
  let b := MethodValue 2 ProvideCloser in
  let w := mkWorld (registered [FuncValue 1; ObjValue 2 [ProvideCloser]]) [] in
  ∃ s1 s2,
    steps (Shutdown_start w) s1 ∧
    gos s1 = [Running; Running] ∧
    steps s1 s2 ∧
    pc s2 = Exited ∧
    gos s2 = [Finished; Finished] ∧
    trace (world s2) = [Enter 0 a; Enter 1 b; Leave 1 b; Leave 0 a].
Proof.
  intros a b w.
  destruct (Shutdown_runs_closers_concurrently_and_joins w) as [Hall Hany].
  destruct (Hany [(0, a); (1, b)] [(1, b); (0, a)]) as (s1 & s2 & H1 & H2 & H3 & H4 & H5 & H6).
  - reflexivity.
  - apply perm_swap.
  - exists s1, s2. split; [exact H1|]. split; [exact H2|]. split; [exact H4|].
    split; [exact H5|].
    split; [exact (proj1 (Hall s2 (steps_trans _ _ _ H1 H4) H5))|].
    rewrite H6. reflexivity.
Defined.

(** C8. The five Apply methods, Modules and Shutdown leave the
    container as it was, all seven fields of it: they add to the trace
    at most. AddModule is the one method that changes it, and it
    changes it at every call. *)
Theorem dispatch_leaves_container_unchanged (w : World) (ptr : nat) :
  heap (exec (ApplyRouter ptr) w) = heap w ∧
  heap (exec (ApplyGRPCServer ptr) w) = heap w ∧
  heap (exec (ApplyCron ptr) w) = heap w ∧
  heap (exec (ApplyRootCommand ptr) w) = heap w ∧
  heap (exec (ApplyRunGroup ptr) w) = heap w ∧
  exec Modules w = w ∧
  (∀ s, steps (Shutdown_start w) s → heap (world s) = heap w) ∧
  (∀ module, heap (exec (AddModule module) w) ≠ heap w).
Proof.
  assert (Happly : ∀ m f, Apply m = Some f → heap (exec (f ptr) w) = heap w).
  { intros m f Hf. unfold exec. by rewrite (Apply_run m f ptr w Hf). }
  split; [by apply (Happly ProvideHttp)|].
  split; [by apply (Happly ProvideGrpc)|].
  split; [by apply (Happly ProvideCron)|].
  split; [by apply (Happly ProvideCommand)|].
  split; [by apply (Happly ProvideRunGroup)|].
  split; [done|].
  split.
  - intros s Hrun. by destruct (steps_inv w s Hrun) as [Hheap _].
  - intros module Heq.
    destruct module as [f|recv methods].
    + pose proof (AddModule_providers ProvideCloser (FuncValue f) w) as H.
      rewrite Heq in H. simpl in H. apply (f_equal length) in H.
      rewrite length_app in H. simpl in H. lia.
    + pose proof (AddModule_modules (ObjValue recv methods) w) as H.
      rewrite Heq in H. apply (f_equal length) in H.
      rewrite length_app in H. simpl in H. lia.
Qed.

Lemma dispatch_leaves_container_unchanged_witness :
  let w := mkWorld (registered [ObjValue 1 [ProvideHttp]; FuncValue 2]) [] in
  heap (exec (ApplyRouter 0) w) = heap w ∧
  heap (world (mkSd w (AtGo 0) 1 [])) = heap w ∧
  heap (exec (AddModule (FuncValue 3)) w) ≠ heap w.
Proof.
  intros w.
  destruct (dispatch_leaves_container_unchanged w 0)
    as (Hrouter & _ & _ & _ & _ & _ & Hshutdown & Hadd).
  split; [exact Hrouter|]. split; [|exact (Hadd (FuncValue 3))].
  apply Hshutdown. apply steps_one.
  exact (step_add w 0 0 [] (FuncLit 2) eq_refl).
Defined.

(** C9. AddModule looks for no earlier registration of the module:
    registered twice, a module has the callback of every capability it
    satisfies (and a bare func() has itself, as a closer) appended
    twice; each later Apply of such a capability calls the callback
    twice more than before, and each Shutdown that returns has entered
    the closer twice more than it is among the closers before. *)
Theorem AddModule_twice_dispatches_twice
    (module : ModuleValue) (m : Method) (w : World) :
  satisfies m module ∨ (m = ProvideCloser ∧ ∃ f, module = FuncValue f) →
  let p := callback m module in
  let w2 := exec (AddModule module ;; AddModule module) w in
  providers m (heap w2) = providers m (heap w) ++ [p; p] ∧
  (∀ f ptr, Apply m = Some f →
     trace (exec (f ptr) w2)
     = trace (exec (f ptr) w) ++ [Call p (host m ptr); Call p (host m ptr)]) ∧
  (m = ProvideCloser →
   ∀ s evs, steps (Shutdown_start w2) s → pc s = Exited →
     trace (world s) = trace w2 ++ evs →
     entered p evs = length (filter (λ q, q = p) (closerProviders (heap w))) + 2).
Proof.
  intros Hsat p w2.
  assert (Happ : appended m module = [p]).
  { destruct Hsat as [Hsat|[-> [f ->]]]; [|done].
    rewrite appended_satisfies by (right; by destruct module).
    by rewrite decide_True. }
  assert (Hprov : providers m (heap w2) = providers m (heap w) ++ [p; p]).
  { unfold w2. rewrite exec_bind, !AddModule_providers, Happ, <- app_assoc. done. }
  assert (Htr : trace w2 = trace w).
  { unfold w2. by rewrite exec_bind, !AddModule_trace. }
  split; [done|]. split.
  - intros f ptr Hf. unfold exec. rewrite !(Apply_run m f ptr _ Hf). simpl.
    by rewrite Hprov, Htr, map_app, app_assoc.
  - intros -> s evs Hrun Hpc Hevs.
    rewrite (Shutdown_entered w2 s evs p Hrun Hpc Hevs).
    simpl in Hprov. rewrite Hprov, filter_app, length_app. f_equal.
    rewrite !filter_cons, !decide_True by done. done.
Qed.

Lemma AddModule_twice_dispatches_twice_witness :
  let module := ObjValue 7 [ProvideHttp; ProvideCloser] in
  let w2 := exec (AddModule module ;; AddModule module) (mkWorld zero []) in
  httpProviders (heap w2) = [MethodValue 7 ProvideHttp; MethodValue 7 ProvideHttp] ∧
  trace (exec (ApplyRouter 3) w2)
  = [Call (MethodValue 7 ProvideHttp) (Router 3); Call (MethodValue 7 ProvideHttp) (Router 3)] ∧
  ∃ s, steps (Shutdown_start w2) s ∧ pc s = Exited ∧
       entered (MethodValue 7 ProvideCloser) (trace (world s)) = 2.
Proof.
  intros module w2.
  destruct (AddModule_twice_dispatches_twice module ProvideHttp (mkWorld zero []))
    as (Ha & Hb & _).
  { left. apply (bool_decide_unpack _). reflexivity. }
  destruct (AddModule_twice_dispatches_twice module ProvideCloser (mkWorld zero []))
    as (_ & _ & Hc).
  { left. apply (bool_decide_unpack _). reflexivity. }
  split; [exact Ha|]. split; [exact (Hb ApplyRouter 3 eq_refl)|].
  destruct (Shutdown_any_order w2 (tasks (closerProviders (heap w2)))
              (tasks (closerProviders (heap w2)))
              (Permutation_refl _) (Permutation_refl _))
    as (s1 & s2 & H1 & _ & _ & H2 & Hpc & Hw).
  exists s2. split; [exact (steps_trans _ _ _ H1 H2)|]. split; [exact Hpc|].
  rewrite Hw.
  exact (Hc eq_refl s2 _ (steps_trans _ _ _ H1 H2) Hpc (f_equal trace Hw)).
Defined.

(** * Properties of the resource providers *)

Section ProviderFacts.

Lemma etcd_resolve_absent env (dbConfs : gmap string otetcd.Option) name :
  dbConfs !! name = None →
  otetcd.resolve env dbConfs name
  = if decide (name ≠ "default") then
      inr ("etcd configuration " +:+ name +:+ " not valid")
    else
      inl (otetcd.Option_with_endpoints
             [if decide (Getenv env "ETCD_ADDR" ≠ "")
              then Getenv env "ETCD_ADDR" else "127.0.0.1:6379"]).
Proof.
  intros H. unfold otetcd.resolve. rewrite H. by repeat case_decide.
Qed.

Lemma etcd_construct_resolved New env p (dbConfs : gmap string otetcd.Option) name conf :
  otetcd.resolve env dbConfs name = inl conf →
  otetcd.construct New env p dbConfs name
  = let client :=
      (New (otetcd.intercepted p name (otetcd.traced p (otetcd.config_of conf)))).1 in
    (di.mkPair (EtcdClientPtr client) (Some (EtcdClientPtr client)), None).
Proof. intros H. unfold otetcd.construct. by rewrite H. Qed.

End ProviderFacts.

(** C4, as stated, fails for the redis builder: with no entry for
    "default" it does not fall back to anything, it returns the error
    for a configuration that is not there. *)
Lemma redis_default_has_no_fallback :
  ¬ (∀ NewUniversalClient p (dbConfs : gmap string otredis.UniversalOptions),
       dbConfs !! "default" = None →
       (otredis.construct NewUniversalClient p dbConfs "default").2 = None).
Proof.
  intros H.
  specialize (H (λ _, 0) (otredis.mkRedisIn None None) ∅ (lookup_empty _)).
  vm_compute in H. discriminate.
Qed.

(** C4, amended. For a name that is absent from the parsed
    configuration: the etcd builder, when the name is "default", builds
    from the endpoint in ETCD_ADDR, or from its hard-coded endpoint when
    that variable is empty, and returns no error; when the name is not
    "default", it returns no instance and the error "etcd configuration
    <name> not valid". The redis builder has no fallback: for every
    absent name, "default" too, it returns no instance and the error
    "redis configuration <name> not valid". *)
Theorem absent_configuration_entry :
  (∀ New env p (dbConfs : gmap string otetcd.Option) name,
     dbConfs !! name = None →
     (name = "default" →
      ∃ endpoint,
        endpoint = (if decide (Getenv env "ETCD_ADDR" ≠ "")
                    then Getenv env "ETCD_ADDR" else "127.0.0.1:6379") ∧
        otetcd.construct New env p dbConfs name
        = let client :=
            (New (otetcd.intercepted p name
                    (otetcd.traced p
                       (otetcd.config_of (otetcd.Option_with_endpoints [endpoint]))))).1 in
          (di.mkPair (EtcdClientPtr client) (Some (EtcdClientPtr client)), None)) ∧
     (name ≠ "default" →
      otetcd.construct New env p dbConfs name
      = (di.zero_Pair, Some ("etcd configuration " +:+ name +:+ " not valid")))) ∧
  (∀ NewUniversalClient p (dbConfs : gmap string otredis.UniversalOptions) name,
     dbConfs !! name = None →
     otredis.construct NewUniversalClient p dbConfs name
     = (di.zero_Pair, Some ("redis configuration " +:+ name +:+ " not valid"))).
Proof.
  split.
  - intros New env p dbConfs name Habs.
    pose proof (etcd_resolve_absent env dbConfs name Habs) as Hres. split.
    + intros ->. rewrite decide_False in Hres by (intros ?; done).
      eexists. split; [done|]. by apply etcd_construct_resolved.
    + intros Hne. rewrite decide_True in Hres by done.
      unfold otetcd.construct. by rewrite Hres.
  - intros NewUniversalClient p dbConfs name Habs.
    unfold otredis.construct. by rewrite Habs.
Qed.

Lemma absent_configuration_entry_witness :
  let New := λ co : clientv3.Config, (Some 1, None) in
  let p := otetcd.mkFactoryIn None None in
  (otetcd.construct New ∅ p ∅ "default").2 = None ∧
  otetcd.construct New ∅ p ∅ "missing"
  = (di.zero_Pair, Some "etcd configuration missing not valid") ∧
  otredis.construct (λ _, 0) (otredis.mkRedisIn None None) ∅ "default"
  = (di.zero_Pair, Some "redis configuration default not valid").
Proof.
  intros New p. destruct absent_configuration_entry as [Hetcd Hredis].
  split; [|split].
  - destruct (Hetcd New ∅ p ∅ "default" (lookup_empty _)) as [Hdef _].
    destruct (Hdef eq_refl) as (endpoint & _ & ->). reflexivity.
  - destruct (Hetcd New ∅ p ∅ "missing" (lookup_empty _)) as [_ Hmiss].
    apply Hmiss. discriminate.
  - apply (Hredis (λ _, 0) (otredis.mkRedisIn None None) ∅ "default" (lookup_empty _)).
Defined.

(** With the factory as the specification has it, [Make("default")]
    of the etcd package succeeds when "default" is not configured, and
    ProvideRedis is then left with a nil default client. *)
Example etcd_Make_default_succeeds :
  let New := λ co : clientv3.Config, (Some 1, None) in
  (otetcd.Make (di.NewFactory (otetcd.construct New ∅ (otetcd.mkFactoryIn None None) ∅))
     "default").1 = Returns (Some 1, None).
Proof. vm_compute. reflexivity. Qed.

Example ProvideRedis_without_default :
  ∃ factory,
    otredis.ProvideRedis (λ _, 0) (otredis.mkRedisIn None None) ∅
    = Returns (otredis.mkRedisOut factory NilIface).
Proof. eexists. reflexivity. Qed.

(** C5 does not hold of the etcd builder: when clientv3.New fails for
    the configuration of a name, the builder drops the error and returns
    the nil client it was given as a pair, with no error; the typed
    Make then hands the caller a nil client and a nil error. *)
Theorem etcd_construction_error_is_dropped
    New env p (dbConfs : gmap string otetcd.Option) name conf err :
  dbConfs !! name = Some conf →
  New (otetcd.intercepted p name (otetcd.traced p (otetcd.config_of conf)))
    = (None, Some err) →
  otetcd.construct New env p dbConfs name
    = (di.mkPair (EtcdClientPtr None) (Some (EtcdClientPtr None)), None) ∧
  otetcd.narrow (EtcdClientPtr None, None) = Returns (None, None).
Proof.
  intros Hconf Hnew. split; [|done].
  rewrite (etcd_construct_resolved New env p dbConfs name conf).
  - simpl. by rewrite Hnew.
  - unfold otetcd.resolve. by rewrite Hconf.
Qed.

(** clientv3.New refuses a configuration without endpoints; an entry
    "bad" that has none is such a build failure. *)
Lemma etcd_construction_error_is_dropped_witness :
  let New := λ co : clientv3.Config,
    match clientv3.Endpoints co with
    | [] => (None, Some "etcdclient: no available endpoints")
    | _ => (Some 1, None)
    end in
  let dbConfs : gmap string otetcd.Option :=
    {[ "bad" := otetcd.Option_with_endpoints [] ]} in
  otetcd.construct New ∅ (otetcd.mkFactoryIn None None) dbConfs "bad"
    = (di.mkPair (EtcdClientPtr None) (Some (EtcdClientPtr None)), None) ∧
  otetcd.narrow (EtcdClientPtr None, None) = Returns (None, None).
Proof.
  intros New dbConfs.
  apply (etcd_construction_error_is_dropped New ∅ (otetcd.mkFactoryIn None None)
           dbConfs "bad" (otetcd.Option_with_endpoints [])
           "etcdclient: no available endpoints").
  - reflexivity.
  - reflexivity.
Defined.

(** C6, as stated, fails: an instance of another type with a nil error
    makes the typed Make panic in its type assertion; no error is
    returned. *)
Lemma type_mismatch_panics :
  ¬ (∀ v : Iface, (∀ client, v ≠ EtcdClientPtr client) →
       ∃ err, otetcd.narrow (v, None) = Returns (None, Some err)).
Proof.
  intros H. destruct (H (OtherValue 0)) as [err Herr]; [done|].
  simpl in Herr. discriminate.
Qed.

(** C6, amended. In both typed wrappers, when the generic factory
    returns an error, Make returns that error with a nil instance;
    when it returns, with no error, an instance of the expected type,
    Make returns that instance and no error; when it returns, with no
    error, an instance of any other type (the nil interface too), the
    type assertion panics. *)
Theorem typed_Make_narrows :
  (∀ v err, otetcd.narrow (v, Some err) = Returns (None, Some err)) ∧
  (∀ client, otetcd.narrow (EtcdClientPtr client, None) = Returns (client, None)) ∧
  (∀ v, (∀ client, v ≠ EtcdClientPtr client) → otetcd.narrow (v, None) = Panics) ∧
  (∀ v err, otredis.narrow (v, Some err) = Returns (NilIface, Some err)) ∧
  (∀ client hooks,
     otredis.narrow (RedisUniversalClient client hooks, None)
     = Returns (RedisUniversalClient client hooks, None)) ∧
  (∀ v, (∀ client hooks, v ≠ RedisUniversalClient client hooks) →
     otredis.narrow (v, None) = Panics).
Proof.
  split; [by intros []|]. split; [done|]. split.
  { intros [] H; try done. by destruct (H client). }
  split; [by intros []|]. split; [done|].
  intros [] H; try done. by destruct (H client hooks).
Qed.

Lemma typed_Make_narrows_witness :
  otetcd.narrow (OtherValue 0, None) = Panics ∧
  otredis.narrow (EtcdClientPtr (Some 1), None) = Panics.
Proof.
  destruct typed_Make_narrows as (_ & _ & Hetcd & _ & _ & Hredis). split.
  - apply Hetcd. discriminate.
  - apply Hredis. discriminate.
Defined.

(** C10. With no entry for "default" in the parsed configuration and
    ETCD_ADDR not set, the etcd builder builds its client for the
    endpoint 127.0.0.1:6379, while the default configuration the package
    exports names 127.0.0.1:2379. *)
Theorem etcd_fallback_endpoint
    New (env : gmap string string) p (dbConfs : gmap string otetcd.Option) :
  dbConfs !! "default" = None →
  env !! "ETCD_ADDR" = None →
  let fallback := otetcd.Option_with_endpoints ["127.0.0.1:6379"] in
  otetcd.resolve env dbConfs "default" = inl fallback ∧
  otetcd.construct New env p dbConfs "default"
    = (let client :=
         (New (otetcd.intercepted p "default"
                 (otetcd.traced p (otetcd.config_of fallback)))).1 in
       (di.mkPair (EtcdClientPtr client) (Some (EtcdClientPtr client)), None)) ∧
  clientv3.Endpoints (otetcd.config_of fallback) = ["127.0.0.1:6379"] ∧
  otetcd.Endpoints <$> otetcd.exported_default = Some ["127.0.0.1:2379"] ∧
  Some (otetcd.Endpoints fallback) ≠ (otetcd.Endpoints <$> otetcd.exported_default).
Proof.
  intros Habs Henv fallback.
  assert (Hres : otetcd.resolve env dbConfs "default" = inl fallback).
  { rewrite (etcd_resolve_absent env dbConfs "default" Habs).
    unfold Getenv. rewrite Henv. reflexivity. }
  split; [done|]. split; [by apply etcd_construct_resolved|].
  split; [done|]. split; [by vm_compute|].
  vm_compute. discriminate.
Qed.

Lemma etcd_fallback_endpoint_witness :
  otetcd.resolve ∅ ∅ "default"
  = inl (otetcd.Option_with_endpoints ["127.0.0.1:6379"]).
Proof.
  exact (proj1 (etcd_fallback_endpoint (λ _, (Some 1, None)) ∅
                  (otetcd.mkFactoryIn None None) ∅
                  (lookup_empty _) (lookup_empty _))).
Defined.

(** * More on registration and dispatch *)

Section RegistrationFacts.

Implicit Types (c : Container) (w : World) (module : ModuleValue)
  (p : Func) (m : Method) (ms : list ModuleValue) (t : list Event).

Lemma exec_range_cons {A} (x : A) (l : list A) (body : A → M unit) w :
  exec (range (x :: l) body) w = exec (range l body) (exec (body x) w).
Proof. simpl. unfold exec, mbind, M_bind, bind. by destruct (body x w). Qed.

Lemma registration_modules ms w :
  modules (heap (exec (range ms AddModule) w))
  = modules (heap w) ++ filter (λ module, assert_func module = None) ms.
Proof.
  revert w. induction ms as [|module ms IH]; intros w.
  - simpl. by rewrite app_nil_r.
  - rewrite exec_range_cons, IH, AddModule_modules, filter_cons, <- app_assoc.
    by destruct module.
Qed.

Lemma registration_trace ms w : trace (exec (range ms AddModule) w) = trace w.
Proof.
  revert w. induction ms as [|module ms IH]; intros w; [done|].
  by rewrite exec_range_cons, IH, AddModule_trace.
Qed.

Lemma Apply_exec m f ptr w :
  Apply m = Some f →
  exec (f ptr) w
  = mkWorld (heap w) (trace w ++ map (λ p, Call p (host m ptr)) (providers m (heap w))).
Proof. intros Hf. unfold exec. by rewrite (Apply_run m f ptr w Hf). Qed.

End RegistrationFacts.

(** X1. Modules() of a container built by registrations returns the
    registered values that are not bare func() values, each once per
    registration, in registration order. *)
Theorem Modules_after_registration (ms : list ModuleValue) (t : list Event) :
  eval Modules (mkWorld (registered ms) t)
  = filter (λ module, assert_func module = None) ms.
Proof.
  unfold eval, Modules, registered. simpl. unfold mbind, M_bind, bind, load. simpl.
  by rewrite registration_modules.
Qed.

(** X2. The closers of a container built by registrations are, in
    registration order, the bare func() values themselves and the
    ProvideCloser methods of the modules that have one. *)
Theorem closers_after_registration (ms : list ModuleValue) :
  closerProviders (registered ms)
  = map (callback ProvideCloser)
      (filter (λ module, is_Some (assert_func module) ∨ satisfies ProvideCloser module) ms).
Proof.
  change (closerProviders (registered ms)) with (providers ProvideCloser (registered ms)).
  unfold registered. rewrite registration_providers. simpl.
  induction ms as [|module ms IH]; [done|]. simpl. rewrite filter_cons, IH.
  destruct module as [f|recv methods]; simpl.
  - done.
  - case_bool_decide; case_decide as Hd; simpl; try done.
    + destruct Hd. by right.
    + destruct Hd as [[? [=]]|?]; done.
Qed.

(** X3. Registration calls nothing and only ever appends: after any
    sequence of AddModule calls on any container the trace is the same,
    and each of the six callback sequences and the module collection
    has its old contents as a prefix. *)
Theorem registration_only_appends (ms : list ModuleValue) (w : World) (m : Method) :
  let w' := exec (range ms AddModule) w in
  trace w' = trace w ∧
  providers m (heap w) `prefix_of` providers m (heap w') ∧
  modules (heap w) `prefix_of` modules (heap w').
Proof.
  intros w'. unfold w'. split; [apply registration_trace|]. split.
  - rewrite registration_providers. by eexists.
  - rewrite registration_modules. by eexists.
Qed.

(** X4. A value with none of the six provider methods that is not a
    func() is kept in the module collection and nowhere else: the six
    callback sequences stay as they were, so no Apply method and no
    Shutdown ever calls into it. *)
Theorem AddModule_without_capability (recv : nat) (w : World) :
  let module := ObjValue recv [] in
  let w' := exec (AddModule module) w in
  (∀ m, providers m (heap w') = providers m (heap w)) ∧
  modules (heap w') = modules (heap w) ++ [module] ∧
  (∀ m f ptr, Apply m = Some f → exec (f ptr) w' = mkWorld (heap w') (trace (exec (f ptr) w))).
Proof.
  intros module w'.
  assert (Hprov : ∀ m, providers m (heap w') = providers m (heap w)).
  { intros m. unfold w'. rewrite AddModule_providers. simpl. by rewrite app_nil_r. }
  split; [done|]. split; [apply AddModule_modules|].
  intros m f ptr Hf. rewrite !(Apply_exec m f ptr _ Hf).
  cbn [trace]. rewrite Hprov. do 2 f_equal; apply AddModule_trace.
Qed.

Lemma AddModule_without_capability_witness :
  let w := mkWorld (registered [ObjValue 1 [ProvideHttp]]) [] in
  let w' := exec (AddModule (ObjValue 2 [])) w in
  modules (heap w') = [ObjValue 1 [ProvideHttp]; ObjValue 2 []] ∧
  exec (ApplyRouter 3) w' = mkWorld (heap w') [Call (MethodValue 1 ProvideHttp) (Router 3)].
Proof.
  intros w w'.
  destruct (AddModule_without_capability 2 w) as (_ & Hmod & Happly).
  split; [exact Hmod | exact (Happly ProvideHttp ApplyRouter 3 eq_refl)].
Defined.

(** X5. The Apply methods keep no record of what they dispatched: a
    second call with the same host calls every callback of the
    capability once more, in the same order. *)
Theorem Apply_twice (m : Method) (f : nat → M unit) (ptr : nat) (w : World) :
  Apply m = Some f →
  let calls := map (λ p, Call p (host m ptr)) (providers m (heap w)) in
  exec (f ptr ;; f ptr) w = mkWorld (heap w) (trace w ++ calls ++ calls).
Proof.
  intros Hf calls. rewrite exec_bind, !(Apply_exec m f ptr _ Hf).
  cbn [trace heap]. by rewrite <- app_assoc.
Qed.

Lemma Apply_twice_witness :
  exec (ApplyCron 4 ;; ApplyCron 4)
    (mkWorld (registered [ObjValue 1 [ProvideCron]; FuncValue 2; ObjValue 3 [ProvideCron]]) [])
  = mkWorld (registered [ObjValue 1 [ProvideCron]; FuncValue 2; ObjValue 3 [ProvideCron]])
      [Call (MethodValue 1 ProvideCron) (Crontab 4); Call (MethodValue 3 ProvideCron) (Crontab 4);
       Call (MethodValue 1 ProvideCron) (Crontab 4); Call (MethodValue 3 ProvideCron) (Crontab 4)].
Proof.
  exact (Apply_twice ProvideCron ApplyCron 4
           (mkWorld (registered [ObjValue 1 [ProvideCron]; FuncValue 2; ObjValue 3 [ProvideCron]]) [])
           eq_refl).
Defined.

(** * More on the runs of Shutdown *)

Section ShutdownProgress.

Import shutdown.

Implicit Types (cl : list Func) (g : list GoState) (st : GoState)
  (p : Func) (s : Sd) (w : World).

Lemma steps_in_steps n s1 s2 : steps_in n s1 s2 → steps s1 s2.
Proof.
  induction 1 as [|n a b c _ IH Hstep]; [apply steps_refl|].
  by eapply steps_more.
Qed.

Lemma pending_le g : pending g ≤ length g.
Proof. unfold pending. apply length_filter. Qed.


Lemma sum_ahead_insert g j st st' :
  g !! j = Some st → ahead st = S (ahead st') →
  sum_list (ahead <$> g) = S (sum_list (ahead <$> <[j:=st']> g)).
Proof.
  revert j. induction g as [|st0 g IH]; intros [|j] Hj Hst; simplify_eq/=.
  - lia.
  - rewrite (IH j Hj Hst). lia.
Qed.

Lemma inv_length w0 s :
  Shutdown_inv w0 s → length (gos s) ≤ length (closerProviders (heap w0)).
Proof. intros (_ & _ & Hpc). destruct (pc s); lia. Qed.

Lemma step_remaining w0 s s' :
  Shutdown_inv w0 s → step s s' →
  remaining (length (closerProviders (heap w0))) s
  = S (remaining (length (closerProviders (heap w0))) s').
Proof.
  intros Hinv Hstep. pose proof (inv_length _ _ Hinv) as Hlen.
  destruct Hinv as (Hheap & _ & Hpc).
  destruct Hstep; unfold remaining; simpl in *.
  - rewrite Hheap in *. apply lookup_lt_Some in H. lia.
  - destruct Hpc as (Hi & Hlt & _). rewrite length_app, fmap_app, sum_list_with_app.
    simpl. lia.
  - rewrite Hheap in *. apply lookup_ge_None in H. lia.
  - rewrite length_insert. rewrite (sum_ahead_insert g j Spawned Running) by done. lia.
  - rewrite length_insert. rewrite (sum_ahead_insert g j Running Returned) by done. lia.
  - rewrite length_insert. rewrite (sum_ahead_insert g j Returned Finished) by done. lia.
Qed.

Lemma exited_stuck w0 s s' : Shutdown_inv w0 s → pc s = Exited → ¬ step s s'.
Proof.
  intros (_ & _ & Hpc) Hex Hstep. rewrite Hex in Hpc. destruct Hpc as [_ Hpend].
  apply pending_none in Hpend.
  destruct Hstep; simpl in *; try done;
    rewrite Hpend in H; apply lookup_replicate in H; by destruct H.
Qed.


Lemma exited_wg w0 s : steps (Shutdown_start w0) s → pc s = Exited → wg s = 0%Z.
Proof.
  intros Hrun. remember (Shutdown_start w0) as s0 eqn:E.
  induction Hrun as [|s1 s2 s3 Hrun IH Hstep]; subst; [done|].
  intros Hex. pose proof (steps_inv _ _ Hrun) as Hinv.
  destruct (decide (pc s2 = Exited)) as [Hex2|Hne2].
  { by destruct (exited_stuck _ _ s3 Hinv Hex2). }
  destruct Hstep; simpl in *; done.
Qed.

End ShutdownProgress.

(** X6. The counter of the WaitGroup is never negative in a run of
    Shutdown (wg.Done() is never called more often than wg.Add(1)) and
    never above the number of closers; it is zero when Shutdown has
    returned. *)
Theorem Shutdown_counter_bounds (w : World) (s : Sd) :
  steps (Shutdown_start w) s →
  (0 ≤ wg s ≤ Z.of_nat (length (closerProviders (heap w))))%Z ∧
  (pc s = Exited → wg s = 0%Z).
Proof.
  intros Hrun. split; [|exact (exited_wg w s Hrun)].
  destruct (decide (pc s = Exited)) as [Hex|Hne].
  { rewrite (exited_wg w s Hrun Hex). lia. }
  destruct (steps_inv _ _ Hrun) as (_ & _ & Hpc).
  pose proof (pending_le (gos s)).
  destruct (pc s); [| |done]; lia.
Qed.

Lemma Shutdown_counter_bounds_witness :
  let w := mkWorld (registered [FuncValue 1; FuncValue 2]) [] in
  let s := mkSd w (AtGo 0) 1 [] in
  (0 ≤ wg s ≤ Z.of_nat (length (closerProviders (heap w))))%Z.
Proof.
  intros w s.
  exact (proj1 (Shutdown_counter_bounds w (mkSd w (AtGo 0) 1 [])
          (steps_one _ _ (step_add w 0 0 [] (FuncLit 1) eq_refl)))).
Defined.



(** X8. Under every schedule Shutdown over K closers that all return
    takes 5K + 1 steps: a run never has more, and it has reached the
    return of Shutdown exactly when it has that many. *)
Theorem Shutdown_step_count (w : World) (n : nat) (s : Sd) :
  shutdown.steps_in n (Shutdown_start w) s →
  let K := length (closerProviders (heap w)) in
  n + shutdown.remaining K s = 5 * K + 1 ∧
  (pc s = Exited ↔ n = 5 * K + 1).
Proof.
  intros Hrun K.
  assert (Hsum : n + shutdown.remaining K s = 5 * K + 1).
  { remember (Shutdown_start w) as s0 eqn:E.
    induction Hrun as [|n s1 s2 s3 Hrun IH Hstep]; subst.
    - unfold shutdown.remaining. simpl. lia.
    - pose proof (steps_inv _ _ (steps_in_steps _ _ _ Hrun)) as Hinv.
      specialize (IH eq_refl). unfold K in *.
      rewrite (step_remaining w s2 s3 Hinv Hstep) in IH. lia. }
  split; [done|].
  destruct (steps_inv _ _ (steps_in_steps _ _ _ Hrun)) as (_ & _ & Hpc).
  unfold shutdown.remaining in Hsum. split.
  - intros Hex. rewrite Hex in *. destruct Hpc as [Hlen Hpend].
    apply pending_none in Hpend. rewrite Hpend, Hlen in Hsum.
    rewrite fmap_replicate, sum_list_replicate in Hsum. simpl in Hsum.
    rewrite length_replicate in Hsum. fold K in Hsum. lia.
  - intros ->. destruct (pc s); simpl in *; [| |done]; lia.
Qed.

Lemma Shutdown_step_count_witness :
  let w := mkWorld (registered [FuncValue 1]) [] in
  1 + shutdown.remaining 1 (mkSd w (AtGo 0) 1 []) = 6.
Proof.
  intros w.
  exact (proj1 (Shutdown_step_count w 1 (mkSd w (AtGo 0) 1 [])
          (shutdown.steps_in_S 0 _ _ _ (shutdown.steps_in_O _)
             (step_add w 0 0 [] (FuncLit 1) eq_refl)))).
Defined.


(** X9. Shutdown keeps no record of having run: called again after it
    has returned, it runs every closer once more, so that over the two
    calls each closer has been entered twice as often as it is
    registered. *)
Theorem Shutdown_twice (w : World) (s1 s2 : Sd) (evs : list Event) (p : Func) :
  steps (Shutdown_start w) s1 → pc s1 = Exited →
  steps (Shutdown_start (world s1)) s2 → pc s2 = Exited →
  trace (world s2) = trace w ++ evs →
  entered p evs = 2 * length (filter (λ q, q = p) (closerProviders (heap w))).
Proof.
  intros Hrun1 Hex1 Hrun2 Hex2 Hevs.
  destruct (Shutdown_exited _ _ Hrun1 Hex1) as (Hheap & _ & evs1 & Htr1 & _).
  destruct (Shutdown_exited _ _ Hrun2 Hex2) as (_ & _ & evs2 & Htr2 & _).
  pose proof (Shutdown_entered w s1 evs1 p Hrun1 Hex1 Htr1) as H1.
  pose proof (Shutdown_entered (world s1) s2 evs2 p Hrun2 Hex2 Htr2) as H2.
  rewrite Hheap in H2.
  rewrite Htr2, Htr1, <- app_assoc in Hevs. apply app_inv_head in Hevs. subst evs.
  unfold entered in *. rewrite filter_app, length_app. lia.
Qed.

Lemma Shutdown_twice_witness :
  let w := mkWorld (registered [FuncValue 1]) [] in
  ∃ s1 s2,
    steps (Shutdown_start w) s1 ∧ pc s1 = Exited ∧
    steps (Shutdown_start (world s1)) s2 ∧ pc s2 = Exited ∧
    entered (FuncLit 1) (trace (world s2)) = 2.
Proof.
  intros w.
  destruct (Shutdown_any_order w [(0, FuncLit 1)] [(0, FuncLit 1)]
              (Permutation_refl _) (Permutation_refl _))
    as (a & s1 & Ha & _ & _ & Hs1 & Hex1 & Hw1).
  assert (Hrun1 : steps (Shutdown_start w) s1) by exact (steps_trans _ _ _ Ha Hs1).
  destruct (Shutdown_any_order (world s1) (tasks (closerProviders (heap (world s1))))
              (tasks (closerProviders (heap (world s1))))
              (Permutation_refl _) (Permutation_refl _))
    as (b & s2 & Hb & _ & _ & Hs2 & Hex2 & Hw2).
  assert (Hrun2 : steps (Shutdown_start (world s1)) s2) by exact (steps_trans _ _ _ Hb Hs2).
  exists s1, s2. split; [exact Hrun1|]. split; [exact Hex1|].
  split; [exact Hrun2|]. split; [exact Hex2|].
  exact (Shutdown_twice w s1 s2 (trace (world s2)) (FuncLit 1)
           Hrun1 Hex1 Hrun2 Hex2 eq_refl).
Defined.

(** * More on the builders *)

(** X10. The etcd builder returns an error exactly for a name that is
    neither configured nor "default"; in every other case it returns no
    error and a pair whose closer closes the very client that the pair
    holds. *)
Theorem etcd_construct_succeeds_iff
    New env p (dbConfs : gmap string otetcd.Option) name :
  let res := otetcd.construct New env p dbConfs name in
  (res.2 = None ↔ is_Some (dbConfs !! name) ∨ name = "default") ∧
  (res.2 = None →
   ∃ client, res.1 = di.mkPair (EtcdClientPtr client) (Some (EtcdClientPtr client))).
Proof.
  intros res. unfold res, otetcd.construct, otetcd.resolve.
  destruct (dbConfs !! name) as [conf|] eqn:Hconf; simpl.
  - split; [|by eauto]. split; [by eauto|done].
  - destruct (decide (name ≠ "default")) as [Hne|Heq]; simpl.
    + split; [|done]. split; [done|]. by intros [[? [=]]|?].
    + apply dec_stable in Heq. case_decide; simpl; (split; [|by eauto]); split; auto.
Qed.

Lemma etcd_construct_succeeds_iff_witness :
  ∃ client,
    (otetcd.construct (λ _, (Some 5, None)) ∅ (otetcd.mkFactoryIn None None) ∅ "default").1
    = di.mkPair (EtcdClientPtr client) (Some (EtcdClientPtr client)).
Proof.
  destruct (etcd_construct_succeeds_iff (λ _, (Some 5, None)) ∅
              (otetcd.mkFactoryIn None None) ∅ "default") as [Hiff Hpair].
  apply Hpair. apply Hiff. right. reflexivity.
Defined.

(** X11. The redis builder returns an error exactly for a name that is
    not configured; for a configured name it returns no error and a
    pair whose closer closes the client that the pair holds, a client
    with the tracing hook when a tracer is present and with no hook
    otherwise. *)
Theorem redis_construct_succeeds_iff
    NewUniversalClient p (dbConfs : gmap string otredis.UniversalOptions) name :
  let res := otredis.construct NewUniversalClient p dbConfs name in
  (res.2 = None ↔ is_Some (dbConfs !! name)) ∧
  (res.2 = None →
   ∃ client hooks,
     res.1 = di.mkPair (RedisUniversalClient client hooks)
                       (Some (RedisUniversalClient client hooks)) ∧
     length hooks = match otredis.Tracer p with Some _ => 1 | None => 0 end).
Proof.
  intros res. unfold res, otredis.construct.
  destruct (dbConfs !! name) as [conf|] eqn:Hconf; simpl.
  - split; [split; [by eauto|done]|]. intros _. eexists _, _. split; [done|].
    by destruct (otredis.Tracer p).
  - split; [|done]. split; [done|]. by intros [? [=]].
Qed.

Lemma redis_construct_succeeds_iff_witness :
  let dbConfs : gmap string otredis.UniversalOptions :=
    {[ "cache" := otredis.mkUniversalOptions ["10.0.0.1:6379"] 2 ]} in
  ∃ client hooks,
    (otredis.construct (λ _, 9) (otredis.mkRedisIn None (Some 4)) dbConfs "cache").1
    = di.mkPair (RedisUniversalClient client hooks)
                (Some (RedisUniversalClient client hooks)) ∧
    length hooks = 1.
Proof.
  intros dbConfs.
  destruct (redis_construct_succeeds_iff (λ _, 9) (otredis.mkRedisIn None (Some 4))
              dbConfs "cache") as [Hiff Hpair].
  apply Hpair. apply Hiff. eexists. reflexivity.
Defined.

(** X12. The etcd builder reads ETCD_ADDR only for the fallback: for a
    configured name, and for any name other than "default", the result
    is the same under every environment. *)
Theorem etcd_construct_ignores_env
    New env env' p (dbConfs : gmap string otetcd.Option) name :
  is_Some (dbConfs !! name) ∨ name ≠ "default" →
  otetcd.construct New env p dbConfs name = otetcd.construct New env' p dbConfs name.
Proof.
  intros H. unfold otetcd.construct, otetcd.resolve.
  destruct (dbConfs !! name) as [conf|]; [done|].
  destruct H as [[? [=]]|Hne]. by rewrite !decide_True.
Qed.

Lemma etcd_construct_ignores_env_witness :
  let New := λ co : clientv3.Config,
    (match clientv3.Endpoints co with ["10.0.0.7:2379"] => Some 1 | _ => Some 2 end, None) in
  let dbConfs : gmap string otetcd.Option :=
    {[ "default" := otetcd.Option_with_endpoints ["10.0.0.7:2379"] ]} in
  otetcd.construct New {[ "ETCD_ADDR" := "10.9.9.9:2379" ]}
    (otetcd.mkFactoryIn None None) dbConfs "default"
  = otetcd.construct New ∅ (otetcd.mkFactoryIn None None) dbConfs "default".
Proof.
  intros New dbConfs.
  apply (etcd_construct_ignores_env New {[ "ETCD_ADDR" := "10.9.9.9:2379" ]} ∅
           (otetcd.mkFactoryIn None None) dbConfs "default").
  left. eexists. reflexivity.
Defined.

(** X13. What the builders return never makes the typed wrappers panic:
    the instance of the etcd builder passes the assertion to
    *clientv3.Client and that of the redis builder the assertion to
    redis.UniversalClient, and an error of the builder is handed on
    unchanged. *)
Theorem builders_fit_typed_wrappers :
  (∀ New env p (dbConfs : gmap string otetcd.Option) name,
     let res := otetcd.construct New env p dbConfs name in
     ∃ client, otetcd.narrow (di.Conn res.1, res.2) = Returns (client, res.2)) ∧
  (∀ NewUniversalClient p (dbConfs : gmap string otredis.UniversalOptions) name,
     let res := otredis.construct NewUniversalClient p dbConfs name in
     ∃ client, otredis.narrow (di.Conn res.1, res.2) = Returns (client, res.2)).
Proof.
  split.
  - intros New env p dbConfs name res. unfold res, otetcd.construct.
    destruct (otetcd.resolve env dbConfs name); simpl; eauto.
  - intros NewUniversalClient p dbConfs name res. unfold res, otredis.construct.
    destruct (dbConfs !! name); simpl; eauto.
Qed.

(** * Package key *)

Section KeyFacts.

Import key.

Implicit Types (k km : KeyManager) (l parts : list string) (d : string).

Lemma string_app_assoc (a b c : string) : (a +:+ b) +:+ c = a +:+ b +:+ c.
Proof.
  induction a as [|x a IH]; [done|].
  change (String x ((a +:+ b) +:+ c) = String x (a +:+ b +:+ c)). by f_equal.
Qed.

Lemma Join_cons x l d : l ≠ [] → Join (x :: l) d = x +:+ d +:+ Join l d.
Proof. by destruct l. Qed.

Lemma Join_app l1 l2 d :
  l1 ≠ [] → l2 ≠ [] → Join (l1 ++ l2) d = Join l1 d +:+ d +:+ Join l2 d.
Proof.
  intros H1 H2. induction l1 as [|x l1 IH]; [done|].
  destruct l1 as [|y l1].
  - simpl. by destruct l2.
  - rewrite <- app_comm_cons, !Join_cons by done.
    rewrite IH by done. by rewrite !string_app_assoc.
Qed.

Lemma succ_mod_2 i : S i mod 2 = 1 ↔ i mod 2 ≠ 1.
Proof.
  pose proof (Nat.div_mod_eq i 2). pose proof (Nat.div_mod_eq (S i) 2).
  pose proof (Nat.mod_upper_bound i 2). pose proof (Nat.mod_upper_bound (S i) 2).
  lia.
Qed.

Lemma KeepOdd_loop_spec i l km (odd : bool) :
  (odd = true ↔ i mod 2 = 1) →
  Prefixes (KeepOdd_loop i l km) = Prefixes km ++ every_second odd l.
Proof.
  revert i km odd. induction l as [|x l IH]; intros i km odd Hodd; simpl.
  - by rewrite app_nil_r.
  - case_decide as Hi.
    + rewrite (proj2 Hodd Hi). rewrite (IH (S i) _ false).
      * simpl. by rewrite <- app_assoc.
      * rewrite succ_mod_2. split; [done|]. by intros [].
    + destruct odd; [by destruct Hi; apply Hodd|].
      apply (IH (S i) km true). by rewrite succ_mod_2.
Qed.

Lemma every_second_lookup (odd : bool) l j :
  every_second odd l !! j = l !! (2 * j + (if odd then 0 else 1)).
Proof.
  revert odd j. induction l as [|x l IH]; intros odd j.
  - by rewrite !lookup_nil.
  - destruct odd; cbn [every_second].
    + destruct j as [|j]; [done|].
      replace (2 * S j + 0) with (S (2 * j + 1)) by lia.
      cbn [lookup list_lookup]. apply IH.
    + replace (2 * j + 1) with (S (2 * j + 0)) by lia.
      cbn [lookup list_lookup]. apply IH.
Qed.

Lemma every_second_length (odd : bool) l :
  length (every_second odd l) = (length l + (if odd then 1 else 0)) / 2.
Proof.
  revert odd. induction l as [|x l IH]; intros odd.
  - by destruct odd.
  - destruct odd; cbn [every_second length]; rewrite IH.
    + pose proof (Nat.div_mod_eq (length l + 0) 2).
      pose proof (Nat.div_mod_eq (S (length l) + 1) 2).
      pose proof (Nat.mod_upper_bound (length l + 0) 2).
      pose proof (Nat.mod_upper_bound (S (length l) + 1) 2). lia.
    + f_equal. lia.
Qed.

Lemma every_second_app (odd : bool) l1 l2 :
  every_second odd (l1 ++ l2)
  = every_second odd l1 ++ every_second (xorb odd (Nat.odd (length l1))) l2.
Proof.
  revert odd. induction l1 as [|x l1 IH]; intros odd.
  - simpl. by destruct odd.
  - cbn [app every_second length]. rewrite Nat.odd_succ, <- Nat.negb_odd.
    destruct odd; rewrite IH; simpl; by destruct (Nat.odd (length l1)).
Qed.

Lemma SpreadInterface_loop_spec l n out :
  length out = length l → n ≤ length l →
  SpreadInterface_loop l (seq (length l - n) n) out
  = Returns (take (length l - n) out ++ (Str <$> drop (length l - n) l)).
Proof.
  revert out. induction n as [|n IH]; intros out Hlen Hn.
  - simpl. rewrite Nat.sub_0_r, drop_all, take_ge by lia. by rewrite app_nil_r.
  - cbn [seq SpreadInterface_loop].
    destruct (lookup_lt_is_Some_2 l (length l - S n)) as [s Hs]; [lia|].
    rewrite Hs, decide_True by lia.
    replace (S (length l - S n)) with (length l - n) by lia.
    rewrite IH by (rewrite ?length_insert; lia). f_equal.
    rewrite (drop_S l s (length l - S n)) by done.
    replace (S (length l - S n)) with (length l - n) by lia.
    rewrite fmap_cons.
    replace (length l - n) with (S (length l - S n)) at 1 by lia.
    rewrite (take_S_r _ _ (Str s)) by (by apply list_lookup_insert_eq; lia).
    rewrite take_insert_ge by lia. by rewrite <- app_assoc.
Qed.

Lemma KeepOdd_every_second {K} `{Keyer K} (k : K) :
  Spread (KeepOdd k) = every_second false (Spread k).
Proof.
  unfold KeepOdd.
  change (Prefixes (KeepOdd_loop 0 (Spread k) (mkKeyManager []))
          = every_second false (Spread k)).
  by rewrite (KeepOdd_loop_spec 0 _ _ false).
Qed.

End KeyFacts.

(** X14. Labels added with With come after the ones the Keyer has, in
    the order given: With in two steps is With of the two lists
    together, and Key after With joins the labels of the Keyer, the
    added ones and the parts of the call, in this order. *)
Theorem With_composes {K} `{key.Keyer K} (k : K) (a b : list string) (d : string) :
  key.Spread (key.With k a) = key.Spread k ++ a ∧
  key.KeyManager_With (key.With k a) b = key.With k (a ++ b) ∧
  key.Key (key.With k a) d b = key.Join (key.Spread k ++ a ++ b) d.
Proof.
  unfold key.With, key.KeyManager_With, key.Key. simpl.
  split; [done|]. by rewrite <- !app_assoc.
Qed.

(** X15. When the manager has labels and the call has parts, the key is
    the key of the labels alone, the delimiter, and the parts joined by
    the delimiter. *)
Theorem Key_prefix (k : key.KeyManager) (d : string) (parts : list string) :
  key.Prefixes k ≠ [] → parts ≠ [] →
  key.Key k d parts = key.Key k d [] +:+ d +:+ key.Join parts d.
Proof.
  intros Hk Hparts. unfold key.Key. rewrite app_nil_r. by apply Join_app.
Qed.

Lemma Key_prefix_witness :
  key.Key (key.NewManager ["module"; "foo"]) ":" ["mykey"; "x"]
  = key.Key (key.NewManager ["module"; "foo"]) ":" [] +:+ ":" +:+ "mykey:x".
Proof.
  apply (Key_prefix (key.NewManager ["module"; "foo"]) ":" ["mykey"; "x"]);
    discriminate.
Defined.

(** X16. KeepOdd keeps the labels at the odd indices, counted from
    zero, in their order and nothing else: label j of the result is
    label 2j+1 of the Keyer, and the result has half as many labels,
    rounded down. *)
Theorem KeepOdd_lookup {K} `{key.Keyer K} (k : K) (j : nat) :
  key.Spread (key.KeepOdd k) !! j = key.Spread k !! (2 * j + 1) ∧
  length (key.Spread (key.KeepOdd k)) = length (key.Spread k) / 2.
Proof.
  rewrite KeepOdd_every_second, every_second_lookup, every_second_length.
  by rewrite Nat.add_0_r.
Qed.

(** X17. Of a manager made from alternating keys and values KeepOdd
    keeps exactly the values. *)
Theorem KeepOdd_alternating (kvs : list (string * string)) :
  key.Spread (key.KeepOdd (key.NewManager (key.alternating kvs))) = kvs.*2.
Proof.
  rewrite KeepOdd_every_second.
  change (key.every_second false (key.alternating kvs) = kvs.*2).
  induction kvs as [|[a b] kvs IH]; [done|]. simpl. by rewrite IH.
Qed.

(** X18. For a Keyer with an even number of labels KeepOdd goes
    through With: the values kept of the extended manager are the values
    kept of the Keyer followed by the values kept of the added labels. *)
Theorem KeepOdd_With {K} `{key.Keyer K} (k : K) (parts : list string) :
  Nat.even (length (key.Spread k)) = true →
  key.Spread (key.KeepOdd (key.With k parts))
  = key.Spread (key.KeepOdd k) ++ key.Spread (key.KeepOdd (key.NewManager parts)).
Proof.
  intros Heven. rewrite !KeepOdd_every_second.
  change (key.every_second false (key.Spread k ++ parts)
          = key.every_second false (key.Spread k) ++ key.every_second false parts).
  by rewrite every_second_app, <- Nat.negb_even, Heven.
Qed.

Lemma KeepOdd_With_witness :
  key.Spread (key.KeepOdd (key.With (key.NewManager ["module"; "foo"]) ["service"; "bar"]))
  = ["foo"] ++ ["bar"].
Proof.
  exact (KeepOdd_With (key.NewManager ["module"; "foo"]) ["service"; "bar"] eq_refl).
Defined.

(** X19. SpreadInterface never runs out of range: it returns a slice of
    the same length that holds the labels of the Keyer, each as an
    interface value, in their order. *)
Theorem SpreadInterface_boxes {K} `{key.Keyer K} (k : K) :
  key.SpreadInterface k = Returns (key.Str <$> key.Spread k).
Proof.
  unfold key.SpreadInterface.
  pose proof (SpreadInterface_loop_spec (key.Spread k) (length (key.Spread k))
                (replicate (length (key.Spread k)) key.Nil)) as Hloop.
  rewrite Nat.sub_diag in Hloop. rewrite Hloop; [done| |done].
  by rewrite length_replicate.
Qed.
